(** * Replorer: restart of the file manager with restoration of its folder windows

    A shallow embedding of [main.cpp] and the properties of its five parts:
    the path codec ([startsWith], [urlToPath]), the window enumerator
    ([collectOpenFolderPaths]), the process reaper ([killAllExplorer]), the
    folder replay ([reopenFolders]) and the orchestrator ([wmain]).

    Conventions of the embedding.
    - A [wchar_t] is an integer; the only conversion to it in the program,
      the cast of the [long] returned by [wcstol], is written out as a
      reduction modulo 2^16.
    - A pointer into an array of wide characters is the list of the cells
      from the pointee to the end of the object.  Advancing the pointer drops
      leading cells; reading a cell that is not there is a read outside the
      object, and the computation has no result ([None]).  A null pointer is
      [None] of [option wptr].
    - A [std::wstring] is the list of its characters (it may hold any
      character, the null character included).
    - Calls into the operating system are answered by an [OS] record and are
      logged, in order, in a trace of [event]s. *)

From Stdlib Require Import ZArith List Bool Lia.
Import ListNotations.
Open Scope Z_scope.

(** ** Wide characters, pointers, strings *)

Definition wchar_t := Z.
Definition wptr := list wchar_t.
Definition wstring := list wchar_t.

(** [(wchar_t)v] for a [long] [v]: [wchar_t] has 16 bits and no sign. *)
Definition wchar_cast (v : Z) : wchar_t := v mod 65536.

Definition LONG_MAX : Z := 2147483647.
Definition LONG_MIN : Z := -2147483648.

(** Computations that may read outside an object. *)
Notation "x <- e ;; k" :=
  (match e with Some x => k | None => None end)
  (at level 61, e at next level, right associativity).

(** The string a pointer designates: the cells before the first null. *)
Fixpoint wcs (p : wptr) : wstring :=
  match p with
  | [] => []
  | c :: p' => if c =? 0 then [] else c :: wcs p'
  end.

(** The array a wide string literal, or [c_str()], denotes. *)
Definition c_str (s : wstring) : wptr := s ++ [0].

(** ** The library function [wcstol]

    ISO C, in the "C" locale: optional white space, an optional sign, for
    base 16 an optional [0x] or [0X] that a hexadecimal digit follows, then
    the longest run of digits of the base.  The result is the value (clamped
    to the range of [long]) and the end pointer; with no digit at all the
    value is 0 and the end pointer is the start pointer.  Base 0 (detection
    of the base) is not modelled: the program passes 16. *)

Definition iswspace (c : wchar_t) : bool :=
  (c =? 32) || ((9 <=? c) && (c <=? 13)).

Definition digit_value (c : wchar_t) : option Z :=
  if (48 <=? c) && (c <=? 57) then Some (c - 48)
  else if (97 <=? c) && (c <=? 122) then Some (c - 87)
  else if (65 <=? c) && (c <=? 90) then Some (c - 55)
  else None.

Definition digit_in (base : Z) (c : wchar_t) : option Z :=
  match digit_value c with
  | Some d => if d <? base then Some d else None
  | None => None
  end.

Fixpoint skip_space (s : wptr) : wptr :=
  match s with
  | [] => []
  | c :: s' => if iswspace c then skip_space s' else s
  end.

Definition skip_sign (s : wptr) : bool * wptr :=
  match s with
  | c :: s' =>
      if c =? 45 then (true, s')
      else if c =? 43 then (false, s')
      else (false, s)
  | [] => (false, s)
  end.

Definition skip_0x (base : Z) (s : wptr) : wptr :=
  match s with
  | z :: x :: h :: _ =>
      if (base =? 16) && (z =? 48) && ((x =? 120) || (x =? 88))
      then match digit_in 16 h with Some _ => skipn 2 s | None => s end
      else s
  | _ => s
  end.

Fixpoint scan_digits (base : Z) (s : wptr) (acc : Z) : Z * wptr :=
  match s with
  | [] => (acc, [])
  | c :: s' =>
      match digit_in base c with
      | Some d => scan_digits base s' (acc * base + d)
      | None => (acc, s)
      end
  end.

Definition clamp_long (v : Z) : Z :=
  if v <? LONG_MIN then LONG_MIN
  else if LONG_MAX <? v then LONG_MAX
  else v.

Definition wcstol (nptr : wptr) (base : Z) : Z * wptr :=
  let '(neg, s) := skip_sign (skip_space nptr) in
  match skip_0x base s with
  | [] => (0, nptr)
  | c :: s' =>
      match digit_in base c with
      | None => (0, nptr)
      | Some d =>
          let '(v, e) := scan_digits base s' d in
          (clamp_long (if neg then - v else v), e)
      end
  end.

(** ** Path codec *)

(** [startsWith], lines 43-48.  The two null tests come first; the loop
    reads [*prefix], then [*s], and advances both. *)
Fixpoint startsWith_loop (s prefix : wptr) {struct prefix} : option bool :=
  match prefix with
  | [] => None
  | c :: prefix' =>
      if c =? 0 then Some true
      else
        match s with
        | [] => None
        | d :: s' =>
            if negb (d =? c) then Some false
            else startsWith_loop s' prefix'
        end
  end.

Definition startsWith (s prefix : option wptr) : option bool :=
  match s, prefix with
  | Some s, Some prefix => startsWith_loop s prefix
  | _, _ => Some false
  end.

(** [L"file:///"] *)
Definition file_scheme : wstring := [102; 105; 108; 101; 58; 47; 47; 47].

(** The loop of [urlToPath], lines 62-73.  [p] is the read pointer, [out]
    the string built so far.  [p[1] && p[2]] reads [p[2]] only when [p[1]]
    is not null.  [hex] is the array of the two characters and a null;
    [wcstol] always sets [end], to a pointer into [hex], so that of the test
    [end && *end == 0] the read of [*end] is what decides. *)
Fixpoint urlToPath_loop (p : wptr) (out : wstring) : option wstring :=
  match p with
  | [] => None
  | c :: p1 =>
      if c =? 0 then Some out
      else if c =? 47 then urlToPath_loop p1 (out ++ [92])
      else if c =? 37 then
        match p1 with
        | [] => None
        | c1 :: p2 =>
            if c1 =? 0 then urlToPath_loop p1 (out ++ [c])
            else
              match p2 with
              | [] => None
              | c2 :: p3 =>
                  if c2 =? 0 then urlToPath_loop p1 (out ++ [c])
                  else
                    let '(v, e) := wcstol [c1; c2; 0] 16 in
                    match e with
                    | [] => None
                    | x :: _ =>
                        if x =? 0
                        then urlToPath_loop p3 (out ++ [wchar_cast v])
                        else urlToPath_loop p1 (out ++ [c])
                    end
              end
        end
      else urlToPath_loop p1 (out ++ [c])
  end.

(** [urlToPath], lines 57-75. *)
Definition urlToPath (url : option wptr) : option wstring :=
  match url with
  | None => Some []
  | Some u =>
      b <- startsWith (Some u) (Some (c_str file_scheme)) ;;
      if negb b then Some [] else urlToPath_loop (skipn 8 u) []
  end.

(** ** The operating system and the trace of calls *)

Definition DWORD := Z.
Definition HANDLE := Z.
Definition BSTR := wstring.

(** A shell window as the automation interface shows it: [None] stands for
    a failed call or a null result. *)
Record IWebBrowserApp := { get_LocationURL : option BSTR }.
Record IDispatch := { QueryInterface_IWebBrowserApp : option IWebBrowserApp }.
Record IShellWindows := { get_Count : option Z; Item : Z -> option IDispatch }.

Record PROCESSENTRY32W := { th32ProcessID : DWORD; szExeFile : wptr }.

Record OS := {
  CoInitializeEx : bool;
  CoCreateInstance_ShellWindows : option IShellWindows;
  CreateToolhelp32Snapshot : option (list PROCESSENTRY32W);
  OpenProcess : DWORD -> option HANDLE
}.

(** The trace logs the calls into the operating system, with the arguments
    the properties speak of, and the entries into the three functions of
    the program that make such calls. *)
Inductive fn :=
| Fn_collectOpenFolderPaths
| Fn_killAllExplorer
| Fn_reopenFolders.

Inductive event :=
| EvEnter (f : fn)
| EvCoInitializeEx
| EvCoCreateInstance
| EvGetCount
| EvItem (i : Z)
| EvQueryInterface (i : Z)
| EvGetLocationURL (i : Z)
| EvSysFreeString (i : Z)
| EvReleaseApp (i : Z)
| EvReleaseDisp (i : Z)
| EvReleaseShellWindows
| EvCoUninitialize
| EvCreateToolhelp32Snapshot
| EvOpenProcess (pid : DWORD)
| EvTerminateProcess (h : HANDLE) (code : Z)
| EvWaitForSingleObject (h : HANDLE) (ms : Z)
| EvCloseHandle (h : HANDLE)
| EvCloseSnapshot
| EvShellExecuteW (verb file : wstring) (show : Z)
| EvSleep (ms : Z).

Definition trace := list event.

(** Stateful computations: they extend the trace, and have no result when
    a read leaves its object. *)
Definition M (A : Type) : Type := trace -> option (A * trace).

Definition ret {A} (a : A) : M A := fun tr => Some (a, tr).

Definition bind {A B} (m : M A) (k : A -> M B) : M B :=
  fun tr => match m tr with
            | Some (a, tr') => k a tr'
            | None => None
            end.

Definition emit (e : event) : M unit := fun tr => Some (tt, tr ++ [e]).

Definition lift {A} (o : option A) : M A :=
  fun tr => match o with Some a => Some (a, tr) | None => None end.

Declare Scope m_scope.
Delimit Scope m_scope with M.
Notation "'do' x <- m ; k" := (bind m (fun x => k))
  (at level 10, x name, m at level 100, k at level 200) : m_scope.
Notation "m ;; k" := (bind m (fun _ => k))
  (at level 100, right associativity) : m_scope.

(** *** The library function [lstrcmpiW]

    Comparison of the two strings after folding the letters A to Z; only
    the test against 0 is used by the program. *)
Definition CharLower (c : wchar_t) : wchar_t :=
  if (65 <=? c) && (c <=? 90) then c + 32 else c.

Fixpoint lstrcmpiW (a b : wstring) : Z :=
  match a, b with
  | [], [] => 0
  | [], _ :: _ => -1
  | _ :: _, [] => 1
  | x :: a', y :: b' =>
      if CharLower x <? CharLower y then -1
      else if CharLower y <? CharLower x then 1
      else lstrcmpiW a' b'
  end.

(** [L"explorer.exe"], [L"open"], [SW_SHOWNORMAL] *)
Definition explorer_exe : wstring :=
  [101; 120; 112; 108; 111; 114; 101; 114; 46; 101; 120; 101].
Definition open_verb : wstring := [111; 112; 101; 110].
Definition SW_SHOWNORMAL : Z := 1.

Section Program.
Variable os : OS.
Local Open Scope m_scope.

(** ** Window enumerator, lines 83-119 *)

(** The loop [while (i < count)] with [n] rounds to go; [i] grows by one
    each round. *)
Fixpoint collect_loop (sw : IShellWindows) (n : nat) (i : Z)
    (out : list wstring) : M (list wstring) :=
  match n with
  | O => ret out
  | S n' =>
      emit (EvItem i) ;;
      do out1 <-
        match Item sw i with
        | None => ret out
        | Some disp =>
            emit (EvQueryInterface i) ;;
            do out2 <-
              match QueryInterface_IWebBrowserApp disp with
              | None => ret out
              | Some app =>
                  emit (EvGetLocationURL i) ;;
                  do out3 <-
                    match get_LocationURL app with
                    | None => ret out
                    | Some burl =>
                        do p <- lift (urlToPath (Some (c_str burl))) ;
                        let out4 :=
                          match p with [] => out | _ :: _ => out ++ [p] end in
                        emit (EvSysFreeString i) ;;
                        ret out4
                    end ;
                  emit (EvReleaseApp i) ;;
                  ret out3
              end ;
            emit (EvReleaseDisp i) ;;
            ret out2
        end ;
      collect_loop sw n' (i + 1) out1
  end.

(** [out] is the vector passed by reference; it is cleared first and
    returned at the end. *)
Definition collectOpenFolderPaths (out : list wstring) : M (list wstring) :=
  emit (EvEnter Fn_collectOpenFolderPaths) ;;
  let out := @nil wstring in
  emit EvCoInitializeEx ;;
  let needUninit := CoInitializeEx os in
  emit EvCoCreateInstance ;;
  do out <-
    match CoCreateInstance_ShellWindows os with
    | None => ret out
    | Some sw =>
        emit EvGetCount ;;
        do out <-
          match get_Count sw with
          | None => ret out
          | Some count => collect_loop sw (Z.to_nat count) 0 out
          end ;
        emit EvReleaseShellWindows ;;
        ret out
    end ;
  (if needUninit then emit EvCoUninitialize else ret tt) ;;
  ret out.

(** ** Process reaper, lines 125-140 *)

(** The [do ... while (Process32NextW(...))] loop: [pe] is the entry at
    hand, [rest] the entries the snapshot still holds.  The snapshot is the
    list of the entries [Process32FirstW] and [Process32NextW] hand out;
    [Process32FirstW] fails on the empty one.  The results of
    [TerminateProcess] and [WaitForSingleObject] are not read. *)
Fixpoint kill_loop (pe : PROCESSENTRY32W) (rest : list PROCESSENTRY32W)
    : M unit :=
  (if lstrcmpiW (wcs (szExeFile pe)) explorer_exe =? 0 then
     emit (EvOpenProcess (th32ProcessID pe)) ;;
     match OpenProcess os (th32ProcessID pe) with
     | Some h =>
         emit (EvTerminateProcess h 0) ;;
         emit (EvWaitForSingleObject h 2000) ;;
         emit (EvCloseHandle h)
     | None => ret tt
     end
   else ret tt) ;;
  match rest with
  | [] => ret tt
  | pe' :: rest' => kill_loop pe' rest'
  end.

Definition killAllExplorer : M unit :=
  emit (EvEnter Fn_killAllExplorer) ;;
  emit EvCreateToolhelp32Snapshot ;;
  match CreateToolhelp32Snapshot os with
  | None => ret tt
  | Some snap =>
      match snap with
      | [] => ret tt
      | pe :: rest => kill_loop pe rest
      end ;;
      emit EvCloseSnapshot
  end.

(** ** Folder replay, lines 148-157 *)

(** [while (i < paths.size())] with [n] rounds to go; [paths[i]] outside
    the vector has no result.  The result of [ShellExecuteW] is not read. *)
Fixpoint reopen_loop (paths : list wstring) (n : nat) (i : nat) : M unit :=
  match n with
  | O => ret tt
  | S n' =>
      do p <- lift (nth_error paths i) ;
      emit (EvShellExecuteW open_verb (wcs (c_str p)) SW_SHOWNORMAL) ;;
      emit (EvSleep 100) ;;
      reopen_loop paths n' (S i)
  end.

Definition reopenFolders (paths : list wstring) : M unit :=
  emit (EvEnter Fn_reopenFolders) ;;
  reopen_loop paths (length paths) 0%nat.

(** ** Orchestrator, lines 174-189 *)

Definition wmain : M Z :=
  do opened <- collectOpenFolderPaths [] ;
  killAllExplorer ;;
  (match opened with
   | [] => ret tt
   | _ :: _ => reopenFolders opened
   end) ;;
  ret 0.

Definition wWinMain : M Z := wmain.
Definition WinMain : M Z := wmain.

End Program.

(** ** Definitions the statements use *)

(** The identifiers the codec recognises: those that begin with the
    local-file scheme. *)
Definition local_file_form (url : option wptr) : Prop :=
  exists rest, url = Some (file_scheme ++ rest).

(** A pointer the program may be handed: null, or into a string that
    ends. *)
Definition valid_wptr (url : option wptr) : Prop :=
  match url with
  | None => True
  | Some u => In 0 u
  end.

(** [scanned s e]: the pointer [e] is reached from [s] by stepping over
    characters none of which is the null character. *)
Definition scanned (s e : wptr) : Prop :=
  exists pre, s = pre ++ e /\ ~ In 0 pre.

(** Whether the loop decodes a percent sign followed by [c1] and [c2]:
    [wcstol] has read the two characters to the end. *)
Definition is_hex (c : wchar_t) : bool :=
  match digit_in 16 c with Some _ => true | None => false end.

Definition decodes (c1 c2 : wchar_t) : bool :=
  match snd (wcstol [c1; c2; 0] 16) with
  | x :: _ => x =? 0
  | [] => false
  end.

(** The reference encoder of the round trip, following the specification's
    words: after the local-file scheme, a native separator becomes a
    segment separator, a reserved character becomes a percent sign and the
    two hexadecimal digits of its code, any other character is kept.  Which
    characters are reserved is left to the caller. *)
Definition hex_digit (d : Z) : wchar_t :=
  if d <? 10 then 48 + d else 55 + d.

Definition percent_escape (c : wchar_t) : wstring :=
  [37; hex_digit (c / 16); hex_digit (c mod 16)].

Definition encode_char (reserved : wchar_t -> bool) (c : wchar_t) : wstring :=
  if c =? 92 then [47]
  else if reserved c then percent_escape c
  else [c].

Definition encode (reserved : wchar_t -> bool) (path : wstring) : wptr :=
  c_str (file_scheme ++ flat_map (encode_char reserved) path).

(** A character the encoder renders so that the codec reads it back: not
    the null character, and either the native separator, or reserved and
    of one byte, or neither the percent sign nor the segment separator. *)
Definition encodable (reserved : wchar_t -> bool) (c : wchar_t) : Prop :=
  c <> 0 /\
  (c = 92 \/ (if reserved c then 0 <= c < 256 else c <> 37 /\ c <> 47)).

(** The reserved characters of RFC 3986, section 2.2: the delimiters
    [: / ? # [ ] @] and [! $ & ' ( ) * + , ; =].  The percent sign is not
    one of them. *)
Definition rfc3986_reserved (c : wchar_t) : bool :=
  existsb (Z.eqb c)
    [58; 47; 63; 35; 91; 93; 64;
     33; 36; 38; 39; 40; 41; 42; 43; 44; 59; 61].

(** The same set with the percent sign and the space. *)
Definition escaped_bytes (c : wchar_t) : bool :=
  rfc3986_reserved c || (c =? 37) || (c =? 32).

(** [Sales%20Q1], a folder name. *)
Definition sales_path : wstring :=
  [83; 97; 108; 101; 115; 37; 50; 48; 81; 49].

(** The least set of reserved characters: the three the codec gives a
    meaning to. *)
Definition codec_reserved (c : wchar_t) : bool :=
  (c =? 0) || (c =? 37) || (c =? 47).

(** The window enumerator.  [location sw i] is the location identifier
    of the window of index [i], when the window is there, is a browser
    window and has one; [folder_path sw i] is the native path it decodes
    to, when that path is not empty. *)
Definition location (sw : IShellWindows) (i : Z) : option BSTR :=
  match Item sw i with
  | Some disp =>
      match QueryInterface_IWebBrowserApp disp with
      | Some app => get_LocationURL app
      | None => None
      end
  | None => None
  end.

Definition folder_path (sw : IShellWindows) (i : Z) : option wstring :=
  match location sw i with
  | Some burl =>
      match urlToPath (Some (c_str burl)) with
      | Some (c :: p) => Some (c :: p)
      | _ => None
      end
  | None => None
  end.

Definition has_folder_path (sw : IShellWindows) (i : Z) : bool :=
  match folder_path sw i with Some _ => true | None => false end.

(** The indices [i], [i + 1], ... ([n] of them); the enumeration order of
    a collection of [count] windows starts at 0. *)
Fixpoint range (i : Z) (n : nat) : list Z :=
  match n with
  | O => []
  | S n' => i :: range (i + 1) n'
  end.

Definition enumeration (count : Z) : list Z := range 0 (Z.to_nat count).

(** The paths the windows of the indices [l] contribute, in the order of
    [l], and the list a session captures. *)
Definition folder_paths (sw : IShellWindows) (l : list Z) : list wstring :=
  flat_map (fun j => match folder_path sw j with
                     | Some p => [p]
                     | None => []
                     end) l.

Definition captured (os : OS) : list wstring :=
  match CoCreateInstance_ShellWindows os with
  | Some sw =>
      match get_Count sw with
      | Some count => folder_paths sw (enumeration count)
      | None => []
      end
  | None => []
  end.

(** The process reaper.  Names match when they are equal once the letters
    A to Z are folded. *)
Definition wstring_eqb (a b : wstring) : bool :=
  if list_eq_dec Z.eq_dec a b then true else false.

Definition same_name (a b : wstring) : bool :=
  wstring_eqb (map CharLower a) (map CharLower b).

Definition is_explorer (pe : PROCESSENTRY32W) : bool :=
  same_name (wcs (szExeFile pe)) explorer_exe.

(** What is done to one entry that matches. *)
Definition attempt (os : OS) (pe : PROCESSENTRY32W) : trace :=
  EvOpenProcess (th32ProcessID pe) ::
  match OpenProcess os (th32ProcessID pe) with
  | Some h =>
      [EvTerminateProcess h 0; EvWaitForSingleObject h 2000; EvCloseHandle h]
  | None => []
  end.

(** The processes a trace asks to open, and the handles it terminates. *)
Definition opened_pids (tr : trace) : list DWORD :=
  flat_map (fun e => match e with EvOpenProcess pid => [pid] | _ => [] end) tr.

Definition terminated_handles (tr : trace) : list HANDLE :=
  flat_map (fun e => match e with EvTerminateProcess h _ => [h] | _ => [] end)
           tr.

Definition openable (os : OS) (pe : PROCESSENTRY32W) : list HANDLE :=
  match OpenProcess os (th32ProcessID pe) with Some h => [h] | None => [] end.

(** All the process reaper does in a session. *)
Definition reaper_events (os : OS) : trace :=
  [EvEnter Fn_killAllExplorer; EvCreateToolhelp32Snapshot] ++
  match CreateToolhelp32Snapshot os with
  | Some snap =>
      flat_map (attempt os) (filter is_explorer snap) ++ [EvCloseSnapshot]
  | None => []
  end.

(** The folder replay: one request, then the pause. *)
Definition open_request (p : wstring) : trace :=
  [EvShellExecuteW open_verb (wcs (c_str p)) SW_SHOWNORMAL; EvSleep 100].

(** All the orchestrator has the folder replay do for a captured list. *)
Definition replay_events (opened : list wstring) : trace :=
  match opened with
  | [] => []
  | _ :: _ => EvEnter Fn_reopenFolders :: flat_map open_request opened
  end.

(** The string an open-request names when it is handed [p.c_str()]. *)
Definition target (p : wstring) : wstring := wcs (c_str p).

(** The targets of the open-requests of a trace, in order. *)
Definition open_requests (tr : trace) : list wstring :=
  flat_map (fun e => match e with EvShellExecuteW _ f _ => [f] | _ => [] end)
           tr.

(** The part of the program an event belongs to. *)
Inductive component := Capture | Terminate | Replay.

Definition component_of (e : event) : component :=
  match e with
  | EvEnter Fn_collectOpenFolderPaths => Capture
  | EvEnter Fn_killAllExplorer => Terminate
  | EvEnter Fn_reopenFolders => Replay
  | EvCoInitializeEx | EvCoCreateInstance | EvGetCount | EvItem _
  | EvQueryInterface _ | EvGetLocationURL _ | EvSysFreeString _
  | EvReleaseApp _ | EvReleaseDisp _ | EvReleaseShellWindows
  | EvCoUninitialize => Capture
  | EvCreateToolhelp32Snapshot | EvOpenProcess _ | EvTerminateProcess _ _
  | EvWaitForSingleObject _ _ | EvCloseHandle _ | EvCloseSnapshot => Terminate
  | EvShellExecuteW _ _ _ | EvSleep _ => Replay
  end.

Definition from (c : component) (tr : trace) : Prop :=
  Forall (fun e => component_of e = c) tr.

(** How many times a trace enters a function. *)
Definition entries (f : fn) (tr : trace) : nat :=
  length (filter (fun e =>
                    match e, f with
                    | EvEnter Fn_collectOpenFolderPaths,
                      Fn_collectOpenFolderPaths => true
                    | EvEnter Fn_killAllExplorer, Fn_killAllExplorer => true
                    | EvEnter Fn_reopenFolders, Fn_reopenFolders => true
                    | _, _ => false
                    end) tr).

(** The trace a run leaves. *)
Definition trace_of {A} (r : option (A * trace)) : trace :=
  match r with
  | Some (_, tr) => tr
  | None => []
  end.

(** A sample session: four windows (a folder, a virtual window, a window
    that cannot be fetched, a second folder) and three processes, two of
    them file managers, one of which cannot be opened. *)
Definition browser (burl : BSTR) : IDispatch :=
  {| QueryInterface_IWebBrowserApp := Some {| get_LocationURL := Some burl |} |}.

Definition sample_windows : IShellWindows :=
  {| get_Count := Some 4;
     Item := fun i =>
       if i =? 0 then Some (browser (file_scheme ++ [67; 58; 47; 97]))
       else if i =? 1 then Some (browser [58; 58; 123; 125])
       else if i =? 2 then None
       else Some (browser (file_scheme ++ [68; 58; 47])) |}.

Definition sample_snapshot : list PROCESSENTRY32W :=
  [ {| th32ProcessID := 4; szExeFile := c_str [83; 121; 115] |};
    {| th32ProcessID := 100;
       szExeFile := c_str [69; 88; 80; 76; 79; 82; 69; 82; 46; 69; 88; 69] |};
    {| th32ProcessID := 200; szExeFile := c_str explorer_exe |} ].

Definition sample_os : OS :=
  {| CoInitializeEx := true;
     CoCreateInstance_ShellWindows := Some sample_windows;
     CreateToolhelp32Snapshot := Some sample_snapshot;
     OpenProcess := fun pid => if pid =? 100 then Some 7 else None |}.

(** ** Definitions of the further properties *)

(** The native character of a character that is not escaped: the segment
    separator becomes the native separator. *)
Definition to_native (c : wchar_t) : wchar_t := if c =? 47 then 92 else c.

(** A character that neither ends the string nor opens an escape. *)
Definition plain (c : wchar_t) : Prop := c <> 0 /\ c <> 37.

(** The values of a [wchar_t]. *)
Definition wchar_range (c : Z) : Prop := 0 <= c < 65536.

(** What the enumerator does with the window of index [i]. *)
Definition window_events (sw : IShellWindows) (i : Z) : trace :=
  EvItem i ::
  match Item sw i with
  | None => []
  | Some disp =>
      EvQueryInterface i ::
      match QueryInterface_IWebBrowserApp disp with
      | None => []
      | Some app =>
          EvGetLocationURL i ::
          match get_LocationURL app with
          | None => []
          | Some _ => [EvSysFreeString i]
          end ++ [EvReleaseApp i]
      end ++ [EvReleaseDisp i]
  end.

(** All the window enumerator does in a session. *)
Definition capture_events (os : OS) : trace :=
  [EvEnter Fn_collectOpenFolderPaths; EvCoInitializeEx; EvCoCreateInstance]
  ++ match CoCreateInstance_ShellWindows os with
     | None => []
     | Some sw =>
         EvGetCount ::
         match get_Count sw with
         | None => []
         | Some count => flat_map (window_events sw) (enumeration count)
         end ++ [EvReleaseShellWindows]
     end
  ++ (if CoInitializeEx os then [EvCoUninitialize] else []).

(** The windows that were fetched, those that are browser windows, those
    that have a location. *)
Definition has_item (sw : IShellWindows) (i : Z) : bool :=
  match Item sw i with Some _ => true | None => false end.

Definition has_app (sw : IShellWindows) (i : Z) : bool :=
  match Item sw i with
  | Some disp =>
      match QueryInterface_IWebBrowserApp disp with
      | Some _ => true
      | None => false
      end
  | None => false
  end.

Definition has_location (sw : IShellWindows) (i : Z) : bool :=
  match location sw i with Some _ => true | None => false end.

(** The indices of the window objects, of the browser objects and of the
    strings a trace releases, in order. *)
Definition released_disps (tr : trace) : list Z :=
  flat_map (fun e => match e with EvReleaseDisp i => [i] | _ => [] end) tr.

Definition released_apps (tr : trace) : list Z :=
  flat_map (fun e => match e with EvReleaseApp i => [i] | _ => [] end) tr.

Definition freed_strings (tr : trace) : list Z :=
  flat_map (fun e => match e with EvSysFreeString i => [i] | _ => [] end) tr.

(** How many events of a trace a test picks. *)
Definition occurrences (test : event -> bool) (tr : trace) : nat :=
  length (filter test tr).

Definition is_uninit (e : event) : bool :=
  match e with EvCoUninitialize => true | _ => false end.

Definition is_release_collection (e : event) : bool :=
  match e with EvReleaseShellWindows => true | _ => false end.

Definition is_item (e : event) : bool :=
  match e with EvItem _ => true | _ => false end.

Definition is_close_snapshot (e : event) : bool :=
  match e with EvCloseSnapshot => true | _ => false end.

(** The terminations, the waits and the closings of process handles of a
    trace, with their arguments. *)
Definition terminations (tr : trace) : list (HANDLE * Z) :=
  flat_map (fun e => match e with
                     | EvTerminateProcess h code => [(h, code)]
                     | _ => []
                     end) tr.

Definition waits (tr : trace) : list (HANDLE * Z) :=
  flat_map (fun e => match e with
                     | EvWaitForSingleObject h ms => [(h, ms)]
                     | _ => []
                     end) tr.

Definition closed_handles (tr : trace) : list HANDLE :=
  flat_map (fun e => match e with EvCloseHandle h => [h] | _ => [] end) tr.

(** The time a trace may block: the sum of the pauses and of the bounds
    of the waits, in milliseconds. *)
Definition blocking_time (e : event) : Z :=
  match e with
  | EvSleep ms => ms
  | EvWaitForSingleObject _ ms => ms
  | _ => 0
  end.

Definition total_wait (tr : trace) : Z :=
  fold_right (fun e acc => blocking_time e + acc) 0 tr.

(** The indices at which a trace fetches a window, in order. *)
Definition item_calls (tr : trace) : list Z :=
  flat_map (fun e => match e with EvItem i => [i] | _ => [] end) tr.

(** The handle [OpenProcess] returns for a process, if any, and what the
    reaper does with a process it asks to open. *)
Definition returned_handle (os : OS) (pid : DWORD) : list HANDLE :=
  match OpenProcess os pid with Some h => [h] | None => [] end.

Definition pid_events (os : OS) (pid : DWORD) : trace :=
  EvOpenProcess pid ::
  match OpenProcess os pid with
  | Some h =>
      [EvTerminateProcess h 0; EvWaitForSingleObject h 2000; EvCloseHandle h]
  | None => []
  end.

(** A session with one window, at [file:///C:%00a], and no process
    snapshot. *)
Definition cut_windows : IShellWindows :=
  {| get_Count := Some 1;
     Item := fun _ =>
       Some (browser (file_scheme ++ [67; 58] ++ [37; 48; 48] ++ [97])) |}.

Definition cut_os : OS :=
  {| CoInitializeEx := true;
     CoCreateInstance_ShellWindows := Some cut_windows;
     CreateToolhelp32Snapshot := None;
     OpenProcess := fun _ => None |}.

(** * Properties of the path codec *)

Ltac zbool :=
  repeat match goal with
  | H : context [?a =? ?b] |- _ => destruct (Z.eqb_spec a b)
  | H : context [?a <=? ?b] |- _ => destruct (Z.leb_spec a b)
  | H : context [?a <? ?b] |- _ => destruct (Z.ltb_spec a b)
  | |- context [?a =? ?b] => destruct (Z.eqb_spec a b)
  | |- context [?a <=? ?b] => destruct (Z.leb_spec a b)
  | |- context [?a <? ?b] => destruct (Z.ltb_spec a b)
  end; cbn [negb andb orb] in *; try lia; try congruence.

Lemma list_length_ind {A} (P : list A -> Prop) :
  (forall p, (forall q, (length q < length p)%nat -> P q) -> P p) ->
  forall p, P p.
Proof.
  intros step p.
  remember (length p) as n eqn:Hn.
  revert p Hn.
  induction n as [n IH] using (well_founded_induction Wf_nat.lt_wf).
  intros p ->. apply step. intros q Hq. exact (IH _ Hq q eq_refl).
Qed.

(** A hexadecimal digit is none of the characters the scanners treat
    specially. *)
Lemma digit_in_16_char c d :
  digit_in 16 c = Some d ->
  0 <= d < 16 /\ iswspace c = false /\ c <> 0 /\ c <> 45 /\ c <> 43
  /\ c <> 120 /\ c <> 88 /\ c <> 37 /\ c <> 47.
Proof.
  unfold digit_in, digit_value, iswspace. intros H.
  repeat match type of H with
  | context [?a <=? ?b] => destruct (Z.leb_spec a b); simpl in H
  | context [?a <? ?b] => destruct (Z.ltb_spec a b); simpl in H
  end; try discriminate; injection H as <-;
  repeat split; zbool.
Qed.

Lemma wcstol_two_hex c1 c2 d1 d2 :
  digit_in 16 c1 = Some d1 -> digit_in 16 c2 = Some d2 ->
  wcstol [c1; c2; 0] 16 = (d1 * 16 + d2, [0]).
Proof.
  intros H1 H2.
  destruct (digit_in_16_char _ _ H1) as (R1 & W1 & Z1 & M1 & P1 & _).
  destruct (digit_in_16_char _ _ H2) as (R2 & W2 & Z2 & M2 & P2 & X2 & Y2 & _).
  unfold wcstol. simpl. rewrite W1. unfold skip_sign.
  destruct (Z.eqb_spec c1 45); [congruence|].
  destruct (Z.eqb_spec c1 43); [congruence|].
  unfold skip_0x.
  destruct (Z.eqb_spec c2 120); [congruence|].
  destruct (Z.eqb_spec c2 88); [congruence|].
  rewrite andb_false_r. rewrite H1. simpl. rewrite H2.
  replace (digit_in 16 0) with (@None Z) by reflexivity.
  unfold clamp_long, LONG_MIN, LONG_MAX. f_equal. zbool.
Qed.

(** *** Where [wcstol] stops *)

Lemma scanned_refl s : scanned s s.
Proof. exists []. split; [reflexivity | intros []]. Qed.

Lemma scanned_step c s e : c <> 0 -> scanned s e -> scanned (c :: s) e.
Proof.
  intros Hc (pre & -> & Hpre). exists (c :: pre). split; [reflexivity|].
  intros [H | H]; [congruence | auto].
Qed.

Lemma scanned_trans s t e : scanned s t -> scanned t e -> scanned s e.
Proof.
  intros (p1 & -> & H1) (p2 & -> & H2). exists (p1 ++ p2).
  rewrite <- app_assoc. split; [reflexivity|].
  rewrite in_app_iff. tauto.
Qed.

Lemma scanned_null s e : scanned s e -> In 0 s -> In 0 e.
Proof.
  intros (pre & -> & Hpre) H. apply in_app_iff in H. tauto.
Qed.

Lemma digit_in_nonnull base c d : digit_in base c = Some d -> c <> 0.
Proof.
  unfold digit_in, digit_value. intros H ->. discriminate H.
Qed.

Lemma skip_space_scanned s : scanned s (skip_space s).
Proof.
  induction s as [|c s IH]; simpl; [apply scanned_refl|].
  destruct (iswspace c) eqn:W; [|apply scanned_refl].
  apply scanned_step; [|exact IH].
  intros ->. discriminate W.
Qed.

Lemma skip_sign_scanned s : scanned s (snd (skip_sign s)).
Proof.
  destruct s as [|c s]; simpl; [apply scanned_refl|].
  destruct (Z.eqb_spec c 45); simpl.
  - apply scanned_step; [lia | apply scanned_refl].
  - destruct (Z.eqb_spec c 43); simpl.
    + apply scanned_step; [lia | apply scanned_refl].
    + apply scanned_refl.
Qed.

Lemma skip_0x_scanned base s : scanned s (skip_0x base s).
Proof.
  destruct s as [|z [|x [|h s]]]; simpl; try apply scanned_refl.
  destruct ((base =? 16) && (z =? 48) && ((x =? 120) || (x =? 88))) eqn:E;
    [|apply scanned_refl].
  destruct (digit_in 16 h); [|apply scanned_refl].
  apply andb_prop in E as [E Ex]. apply andb_prop in E as [_ Ez].
  apply scanned_step; [zbool|].
  apply scanned_step; [|apply scanned_refl].
  apply orb_prop in Ex as [Ex | Ex]; zbool.
Qed.

Lemma scan_digits_scanned base s acc :
  scanned s (snd (scan_digits base s acc)).
Proof.
  revert acc. induction s as [|c s IH]; intros acc; simpl.
  - apply scanned_refl.
  - destruct (digit_in base c) eqn:D; simpl; [|apply scanned_refl].
    apply scanned_step; [eapply digit_in_nonnull; eauto | apply IH].
Qed.

Lemma wcstol_scanned s base : scanned s (snd (wcstol s base)).
Proof.
  unfold wcstol.
  pose proof (skip_space_scanned s) as H1.
  pose proof (skip_sign_scanned (skip_space s)) as H2.
  destruct (skip_sign (skip_space s)) as [neg t]; simpl in H2.
  pose proof (skip_0x_scanned base t) as H3.
  destruct (skip_0x base t) as [|c u]; simpl; [apply scanned_refl|].
  destruct (digit_in base c) eqn:D; simpl; [|apply scanned_refl].
  pose proof (scan_digits_scanned base u z) as H4.
  destruct (scan_digits base u z) as [v e]; simpl in *.
  eapply scanned_trans; [exact H1|].
  eapply scanned_trans; [exact H2|].
  eapply scanned_trans; [exact H3|].
  apply scanned_step; [eapply digit_in_nonnull; eauto | exact H4].
Qed.

(** *** The decoding loop *)

(** On a string that ends, the loop ends with a result: no read leaves
    the string. *)
Lemma urlToPath_loop_total p :
  In 0 p -> forall out, exists r, urlToPath_loop p out = Some r.
Proof.
  induction p as [p IH] using list_length_ind. intros H0 out.
  destruct p as [|c p1]; [destruct H0|]. simpl.
  destruct (Z.eqb_spec c 0); [eauto|].
  assert (H1 : In 0 p1) by (destruct H0; [congruence | assumption]).
  assert (L1 : forall out, exists r, urlToPath_loop p1 out = Some r)
    by (intro; apply IH; [simpl; lia | assumption]).
  destruct (c =? 47); [apply L1|].
  destruct (c =? 37); [|apply L1].
  destruct p1 as [|c1 p2]; [destruct H1|].
  destruct (Z.eqb_spec c1 0); [apply L1|].
  assert (H2 : In 0 p2) by (destruct H1; [congruence | assumption]).
  destruct p2 as [|c2 p3]; [destruct H2|].
  destruct (Z.eqb_spec c2 0); [apply L1|].
  assert (H3 : In 0 p3) by (destruct H2; [congruence | assumption]).
  match goal with
  | |- context [wcstol ?a ?b] =>
      pose proof (wcstol_scanned a b) as Hs; destruct (wcstol a b) as [v e]
  end; simpl in Hs.
  assert (He : In 0 e) by (eapply scanned_null; [exact Hs | simpl; auto]).
  destruct e as [|x e']; [destruct He|].
  destruct (x =? 0); [|apply L1].
  apply IH; [simpl; lia | assumption].
Qed.

(** One round of the loop, case by case. *)
Lemma urlToPath_loop_null p out : urlToPath_loop (0 :: p) out = Some out.
Proof. reflexivity. Qed.

Lemma urlToPath_loop_slash p out :
  urlToPath_loop (47 :: p) out = urlToPath_loop p (out ++ [92]).
Proof. reflexivity. Qed.

Lemma urlToPath_loop_plain c p out :
  c <> 0 -> c <> 47 -> c <> 37 ->
  urlToPath_loop (c :: p) out = urlToPath_loop p (out ++ [c]).
Proof.
  intros H0 H1 H2. simpl.
  destruct (Z.eqb_spec c 0); [congruence|].
  destruct (Z.eqb_spec c 47); [congruence|].
  destruct (Z.eqb_spec c 37); [congruence|].
  reflexivity.
Qed.

Lemma urlToPath_loop_escape c1 c2 d1 d2 p out :
  digit_in 16 c1 = Some d1 -> digit_in 16 c2 = Some d2 ->
  urlToPath_loop (37 :: c1 :: c2 :: p) out =
  urlToPath_loop p (out ++ [d1 * 16 + d2]).
Proof.
  intros H1 H2.
  destruct (digit_in_16_char _ _ H1) as (R1 & _ & Z1 & _).
  destruct (digit_in_16_char _ _ H2) as (R2 & _ & Z2 & _).
  cbn [urlToPath_loop].
  replace (37 =? 0) with false by reflexivity.
  replace (37 =? 47) with false by reflexivity.
  replace (37 =? 37) with true by reflexivity.
  destruct (Z.eqb_spec c1 0); [congruence|].
  destruct (Z.eqb_spec c2 0); [congruence|].
  rewrite (wcstol_two_hex _ _ _ _ H1 H2).
  replace (0 =? 0) with true by reflexivity.
  unfold wchar_cast. rewrite Z.mod_small by lia. reflexivity.
Qed.

(** The string built so far is only ever extended. *)
Lemma urlToPath_loop_acc p :
  forall out,
    urlToPath_loop p out =
    (r <- urlToPath_loop p [] ;; Some (out ++ r)).
Proof.
  induction p as [p IH] using list_length_ind. intros out.
  assert (step : forall q x, (length q < length p)%nat ->
            urlToPath_loop q (out ++ [x]) =
            (r <- urlToPath_loop q ([] ++ [x]) ;; Some (out ++ r))).
  { intros q x Hq. rewrite (IH q Hq (out ++ [x])), (IH q Hq ([] ++ [x])).
    destruct (urlToPath_loop q []); [|reflexivity].
    simpl. now rewrite <- app_assoc. }
  destruct p as [|c p1]; [reflexivity|]. cbn [urlToPath_loop].
  destruct (c =? 0); [now rewrite app_nil_r|].
  destruct (c =? 47); [apply step; simpl; lia|].
  destruct (c =? 37); [|apply step; simpl; lia].
  destruct p1 as [|c1 p2]; [reflexivity|].
  destruct (c1 =? 0); [apply step; simpl; lia|].
  destruct p2 as [|c2 p3]; [reflexivity|].
  destruct (c2 =? 0); [apply step; simpl; lia|].
  destruct (wcstol [c1; c2; 0] 16) as [v [|x e]]; [reflexivity|].
  destruct (x =? 0); apply step; simpl; lia.
Qed.

(** *** The scheme test *)

Lemma startsWith_loop_spec pre :
  ~ In 0 pre ->
  forall s, In 0 s ->
    (startsWith_loop s (c_str pre) = Some true /\
     exists rest, s = pre ++ rest) \/
    (startsWith_loop s (c_str pre) = Some false /\
     ~ exists rest, s = pre ++ rest).
Proof.
  induction pre as [|c pre IH]; intros Hpre s Hs.
  - left. split; [reflexivity | now exists s].
  - assert (Hc : c <> 0) by (intros ->; apply Hpre; now left).
    assert (Hpre' : ~ In 0 pre) by (intros H; apply Hpre; now right).
    destruct s as [|d s]; [destruct Hs|].
    simpl. destruct (Z.eqb_spec c 0); [congruence|].
    destruct (Z.eqb_spec d c) as [->|Hd]; simpl.
    + assert (Hs' : In 0 s) by (destruct Hs; [congruence | assumption]).
      destruct (IH Hpre' s Hs') as [[E [rest ->]] | [E N]].
      * left. split; [exact E | now exists rest].
      * right. split; [exact E|].
        intros [rest R]. apply N. exists rest. now inversion R.
    + right. split; [reflexivity|].
      intros [rest R]. inversion R. congruence.
Qed.

Lemma urlToPath_file rest :
  urlToPath (Some (file_scheme ++ rest)) = urlToPath_loop rest [].
Proof. reflexivity. Qed.

Lemma urlToPath_other u :
  In 0 u -> ~ (exists rest, u = file_scheme ++ rest) ->
  urlToPath (Some u) = Some [].
Proof.
  intros Hu N. unfold urlToPath, startsWith.
  destruct (startsWith_loop_spec file_scheme) with (s := u)
    as [[_ P] | [E _]]; [|assumption|tauto|now rewrite E].
  unfold file_scheme. simpl. intuition lia.
Qed.

(** *** Which percent sequences are decoded *)

(** The loop on a percent sign that two characters follow. *)
Lemma urlToPath_loop_percent_step c1 c2 p out :
  urlToPath_loop (37 :: c1 :: c2 :: p) out =
    if c1 =? 0 then urlToPath_loop (c1 :: c2 :: p) (out ++ [37])
    else if c2 =? 0 then urlToPath_loop (c1 :: c2 :: p) (out ++ [37])
    else
      match wcstol [c1; c2; 0] 16 with
      | (v, []) => None
      | (v, x :: _) =>
          if x =? 0 then urlToPath_loop p (out ++ [wchar_cast v])
          else urlToPath_loop (c1 :: c2 :: p) (out ++ [37])
      end.
Proof. reflexivity. Qed.

Lemma urlToPath_loop_percent c1 c2 p out :
  c1 <> 0 -> c2 <> 0 ->
  urlToPath_loop (37 :: c1 :: c2 :: p) out =
    if decodes c1 c2
    then urlToPath_loop p
           (out ++ [wchar_cast (fst (wcstol [c1; c2; 0] 16))])
    else urlToPath_loop (c1 :: c2 :: p) (out ++ [37]).
Proof.
  intros H1 H2. rewrite urlToPath_loop_percent_step.
  destruct (Z.eqb_spec c1 0); [congruence|].
  destruct (Z.eqb_spec c2 0); [congruence|].
  unfold decodes.
  pose proof (wcstol_scanned [c1; c2; 0] 16) as Hs.
  unfold wptr, wstring, wchar_t in *.
  destruct (wcstol [c1; c2; 0] 16) as [v e]. cbn [fst snd] in *.
  assert (He : In 0 e) by (eapply scanned_null; [exact Hs | simpl; auto]).
  destruct e as [|x e']; [destruct He | reflexivity].
Qed.

(** A percent sequence is decoded when its two characters are hexadecimal
    digits, and also when the second is one and the first is white space
    or a sign; in no other case. *)
Lemma decodes_iff c1 c2 :
  c1 <> 0 -> c2 <> 0 ->
  decodes c1 c2 =
    is_hex c2 && (is_hex c1 || iswspace c1 || (c1 =? 43) || (c1 =? 45)).
Proof.
  intros H1 H2. unfold decodes, is_hex, wcstol, skip_sign, skip_0x.
  cbn [skip_space].
  assert (D0 : digit_in 16 0 = None) by reflexivity.
  assert (W0 : iswspace 0 = false) by reflexivity.
  assert (hex : forall c d, digit_in 16 c = Some d ->
            iswspace c = false /\ c <> 45 /\ c <> 43 /\ c <> 120 /\ c <> 88)
    by (intros c d D; destruct (digit_in_16_char c d D); tauto).
  destruct (digit_in 16 c1) as [d1|] eqn:D1;
    [destruct (hex _ _ D1) as (W1 & ? & ? & ? & ?); rewrite W1|];
  (destruct (digit_in 16 c2) as [d2|] eqn:D2;
    [destruct (hex _ _ D2) as (W2 & ? & ? & ? & ?); rewrite ?W2|]);
  repeat (cbv beta iota zeta delta [snd fst];
          cbn [scan_digits andb orb skipn];
          rewrite ?D0, ?D1, ?D2, ?W0;
          match goal with
          | |- context [if iswspace ?c then _ else _] =>
              destruct (iswspace c) eqn:?
          | |- context [?a =? ?b] => destruct (Z.eqb_spec a b); try lia
          | |- context [iswspace ?c] => destruct (iswspace c) eqn:?
          end);
  cbv beta iota zeta delta [snd fst]; cbn [scan_digits andb orb skipn];
  rewrite ?D0, ?D1, ?D2, ?W0; try reflexivity; try congruence; try lia.
Qed.

(** *** The round trip *)

Lemma hex_digit_value d :
  0 <= d < 16 -> digit_in 16 (hex_digit d) = Some d.
Proof.
  intros H. unfold hex_digit, digit_in, digit_value.
  destruct (Z.ltb_spec d 10).
  - replace ((48 <=? 48 + d) && (48 + d <=? 57)) with true by (symmetry; zbool).
    replace (48 + d - 48) with d by lia.
    destruct (Z.ltb_spec d 16); [reflexivity | lia].
  - replace ((48 <=? 55 + d) && (55 + d <=? 57)) with false by (symmetry; zbool).
    replace ((97 <=? 55 + d) && (55 + d <=? 122)) with false by (symmetry; zbool).
    replace ((65 <=? 55 + d) && (55 + d <=? 90)) with true by (symmetry; zbool).
    replace (55 + d - 55) with d by lia.
    destruct (Z.ltb_spec d 16); [reflexivity | lia].
Qed.

Section RoundTrip.
Variable reserved : wchar_t -> bool.

Lemma encode_char_decoded c p out :
  encodable reserved c ->
  urlToPath_loop (encode_char reserved c ++ p) out =
  urlToPath_loop p (out ++ [c]).
Proof.
  intros [H0 H]. unfold encode_char.
  destruct (Z.eqb_spec c 92) as [->|N]; [reflexivity|].
  destruct H as [H | H]; [congruence|].
  destruct (reserved c).
  - unfold percent_escape. cbn [app].
    rewrite (urlToPath_loop_escape _ _ (c / 16) (c mod 16)).
    + now replace (c / 16 * 16 + c mod 16) with c
        by (rewrite (Z.div_mod c 16) at 1; lia).
    + apply hex_digit_value.
      split; [apply Z.div_pos; lia | apply Z.div_lt_upper_bound; lia].
    + apply hex_digit_value. apply Z.mod_pos_bound. lia.
  - cbn [app]. apply urlToPath_loop_plain; tauto.
Qed.

Lemma encode_decoded path :
  Forall (encodable reserved) path ->
  urlToPath (Some (encode reserved path)) = Some path.
Proof.
  intros H. unfold encode, c_str. rewrite <- app_assoc, urlToPath_file.
  change path with ([] ++ path) at 2. generalize (@nil wchar_t) as out.
  induction H as [|c path Hc _ IH]; intros out.
  - simpl. now rewrite app_nil_r.
  - cbn [flat_map]. rewrite <- app_assoc, encode_char_decoded by assumption.
    rewrite IH. now rewrite <- app_assoc.
Qed.

End RoundTrip.

Lemma file_scheme_nonnull : ~ In 0 file_scheme.
Proof. unfold file_scheme. simpl. intuition lia. Qed.

Lemma urlToPath_not_local url :
  valid_wptr url -> ~ local_file_form url -> urlToPath url = Some [].
Proof.
  destruct url as [u|]; [|reflexivity].
  intros Hu N. apply urlToPath_other; [exact Hu|].
  intros [rest ->]. apply N. now exists rest.
Qed.

Lemma urlToPath_returns url :
  valid_wptr url -> exists out, urlToPath url = Some out.
Proof.
  destruct url as [u|]; [|now exists []].
  cbn [valid_wptr]. intros V. unfold urlToPath, startsWith.
  destruct (startsWith_loop_spec file_scheme file_scheme_nonnull u V)
    as [[-> [rest ->]] | [-> _]].
  - apply urlToPath_loop_total.
    apply in_app_iff in V as [V | V]; [|exact V].
    destruct (file_scheme_nonnull V).
  - now exists [].
Qed.

Lemma c_str_valid s : valid_wptr (Some (c_str s)).
Proof. simpl. unfold c_str. apply in_app_iff. right. now left. Qed.

(** *** Sample identifiers *)

(** [file:///C:/Program%20Files] is [C:\Program Files]. *)
Example urlToPath_program_files :
  urlToPath (Some (c_str (file_scheme ++
    [67; 58; 47; 80; 114; 111; 103; 114; 97; 109; 37; 50; 48;
     70; 105; 108; 101; 115])))
  = Some [67; 58; 92; 80; 114; 111; 103; 114; 97; 109; 32;
          70; 105; 108; 101; 115].
Proof. reflexivity. Qed.

(** A percent sign one character before the end is kept: [file:///a%2]
    is [a%2]. *)
Example urlToPath_short_escape :
  urlToPath (Some (c_str (file_scheme ++ [97; 37; 50]))) = Some [97; 37; 50].
Proof. reflexivity. Qed.

(** So is one followed by a character that is no digit: [file:///%zz]. *)
Example urlToPath_bad_escape :
  urlToPath (Some (c_str (file_scheme ++ [37; 122; 122])))
  = Some [37; 122; 122].
Proof. reflexivity. Qed.

(** The scheme is compared as it is written: [FILE:///a] is not local. *)
Example urlToPath_upper_scheme :
  urlToPath (Some (c_str [70; 73; 76; 69; 58; 47; 47; 47; 97])) = Some [].
Proof. reflexivity. Qed.

(** *** The claims on the path codec *)

(** C2 (the code departs from it).  The claim: only a percent sign followed
    by two hexadecimal digits is decoded, and any other percent sequence is
    copied unchanged.  On [file:///a%+5] the code returns the letter [a]
    followed by the character of code 5: [wcstol] reads [+5] as a number
    and consumes both characters, so the sequence is decoded although [+]
    is no hexadecimal digit.  The claim asks for [a%+5]. *)
Theorem urlToPath_decodes_signed_escape :
  urlToPath (Some (c_str (file_scheme ++ [97; 37; 43; 53]))) = Some [97; 5]
  /\ digit_in 16 43 = None.
Proof. split; reflexivity. Qed.

(** C5.  An identifier that does not begin with the local-file scheme, the
    null pointer included, yields the empty string, and the call has a
    result: no read leaves the string. *)
Theorem urlToPath_other_scheme_empty (url : option wptr) :
  valid_wptr url -> ~ local_file_form url -> urlToPath url = Some [].
Proof. exact (urlToPath_not_local url). Qed.

Lemma urlToPath_other_scheme_empty_witness :
  let url := Some (c_str [104; 116; 116; 112; 58; 47; 47; 120]) in
  valid_wptr url /\ ~ local_file_form url /\ urlToPath url = Some [].
Proof.
  assert (V : valid_wptr (Some (c_str [104; 116; 116; 112; 58; 47; 47; 120])))
    by (simpl; intuition lia).
  assert (N : ~ local_file_form
                  (Some (c_str [104; 116; 116; 112; 58; 47; 47; 120])))
    by (intros [rest H]; discriminate H).
  exact (conj V (conj N (urlToPath_other_scheme_empty _ V N))).
Defined.

(** C9.  [urlToPath] is total on the pointers it may be handed, null
    included: it returns a string and reads nothing outside its argument;
    its result is a function of its argument alone and it leaves the trace
    of calls as it found it; and an identifier that is not of the local-file
    form is answered by the empty string. *)
Theorem urlToPath_total_pure (url : option wptr) :
  valid_wptr url ->
  exists out,
    urlToPath url = Some out
    /\ (forall out', urlToPath url = Some out' -> out' = out)
    /\ (forall tr, lift (urlToPath url) tr = Some (out, tr))
    /\ (~ local_file_form url -> out = []).
Proof.
  intros V. destruct (urlToPath_returns url V) as [out E].
  exists out. repeat split.
  - exact E.
  - intros out' E'. congruence.
  - intros tr. unfold lift. now rewrite E.
  - intros N. rewrite (urlToPath_not_local url V N) in E. congruence.
Qed.

Lemma urlToPath_total_pure_witness :
  exists out,
    urlToPath (Some (c_str (file_scheme ++ [67; 58; 47; 37; 50]))) = Some out.
Proof.
  destruct (urlToPath_total_pure
              (Some (c_str (file_scheme ++ [67; 58; 47; 37; 50]))))
    as (out & E & _).
  - simpl. intuition lia.
  - exists out. exact E.
Defined.

(** C10.  Decoding is a single pass.  When the loop stands on a percent
    sign followed by two hexadecimal digits, the character of that code is
    appended to the output as it is, and what follows in the output is the
    decoding of what follows the two digits in the input: the appended
    character is not read again.  So [%2F] gives [/], not the native
    separator, and [%252F] gives [%2F], not [/]. *)
Theorem urlToPath_single_pass c1 c2 d1 d2 rest out :
  digit_in 16 c1 = Some d1 -> digit_in 16 c2 = Some d2 ->
  urlToPath_loop (37 :: c1 :: c2 :: rest) out =
    (r <- urlToPath_loop rest [] ;; Some (out ++ [d1 * 16 + d2] ++ r))
  /\ urlToPath (Some (c_str (file_scheme ++ [37; 50; 70]))) = Some [47]
  /\ urlToPath (Some (c_str (file_scheme ++ [37; 50; 53; 50; 70])))
     = Some [37; 50; 70].
Proof.
  intros H1 H2. split; [|split; reflexivity].
  rewrite (urlToPath_loop_escape _ _ _ _ _ _ H1 H2), urlToPath_loop_acc.
  destruct (urlToPath_loop rest []); [|reflexivity].
  now rewrite <- app_assoc.
Qed.

Lemma urlToPath_single_pass_witness :
  urlToPath_loop (37 :: 50 :: 70 :: [47; 97; 0]) [67] =
    (r <- urlToPath_loop [47; 97; 0] [] ;; Some ([67] ++ [2 * 16 + 15] ++ r)).
Proof.
  exact (proj1 (urlToPath_single_pass 50 70 2 15 [47; 97; 0] [67]
                  eq_refl eq_refl)).
Defined.

(** C8 (amended).  Round trip.  Whatever set of characters the reference
    encoder holds reserved, as long as the percent sign and the segment
    separator are among them: a native path without null character, whose
    reserved characters are of one byte, is decoded to itself from its
    encoding.  The path may hold reserved characters, the percent sign
    included: they come back from their escapes; a path free of reserved
    characters is the special case without any escape. *)
Theorem roundtrip_with_percent_reserved (reserved : wchar_t -> bool)
    (path : wstring) :
  reserved 37 = true -> reserved 47 = true ->
  ~ In 0 path ->
  (forall c, In c path -> reserved c = true -> 0 <= c < 256) ->
  urlToPath (Some (encode reserved path)) = Some path.
Proof.
  intros R37 R47 N0 B. apply encode_decoded.
  apply Forall_forall. intros c Hc. unfold encodable. split.
  - intros ->. exact (N0 Hc).
  - right. destruct (reserved c) eqn:Rc.
    + now apply B.
    + split; congruence.
Qed.

Lemma roundtrip_with_percent_reserved_witness :
  encode escaped_bytes sales_path
  = c_str (file_scheme
           ++ [83; 97; 108; 101; 115; 37; 50; 53; 50; 48; 81; 49])
  /\ urlToPath (Some (encode escaped_bytes sales_path)) = Some sales_path.
Proof.
  split; [reflexivity|].
  apply (roundtrip_with_percent_reserved escaped_bytes sales_path);
    [reflexivity | reflexivity | |].
  - unfold sales_path. simpl. intuition lia.
  - intros c Hc _. unfold sales_path in Hc. simpl in Hc. intuition lia.
Defined.

(** C8 as it was stated fails where the percent sign is not among the
    reserved characters.  The path [Sales%20Q1] is free of the reserved
    characters of RFC 3986; the reference encoder for that set leaves it
    as it is behind the scheme; the codec reads [%20] in it as an escape
    and returns [Sales Q1]. *)
Lemma roundtrip_fails_unescaped_percent :
  Forall (fun c => rfc3986_reserved c = false) sales_path
  /\ encode rfc3986_reserved sales_path = c_str (file_scheme ++ sales_path)
  /\ urlToPath (Some (encode rfc3986_reserved sales_path))
     = Some [83; 97; 108; 101; 115; 32; 81; 49]
  /\ urlToPath (Some (encode rfc3986_reserved sales_path))
     <> Some sales_path.
Proof.
  split; [repeat constructor|]. split; [reflexivity|].
  split; [reflexivity | discriminate].
Qed.

(** * Properties of the parts that call the operating system *)

Lemma bind_emit {B} (e : event) (k : unit -> M B) tr :
  bind (emit e) k tr = k tt (tr ++ [e]).
Proof. reflexivity. Qed.

Lemma bind_ret {A B} (a : A) (k : A -> M B) tr : bind (ret a) k tr = k a tr.
Proof. reflexivity. Qed.

Lemma from_app c t1 t2 : from c t1 -> from c t2 -> from c (t1 ++ t2).
Proof. intros H1 H2. apply Forall_app. now split. Qed.

Ltac from_list := repeat (constructor; try reflexivity).

Ltac from_solve :=
  unfold from in *;
  repeat first
    [ assumption
    | apply Forall_nil
    | apply Forall_cons; [reflexivity|]
    | apply Forall_app; split ].

(** ** Window enumerator *)

Lemma folder_paths_filter sw l :
  map Some (folder_paths sw l)
  = map (folder_path sw) (filter (has_folder_path sw) l).
Proof.
  unfold folder_paths.
  induction l as [|j l IH]; [reflexivity|].
  cbn [flat_map filter]. unfold has_folder_path at 1.
  destruct (folder_path sw j) eqn:E; cbn [app map]; now rewrite IH, ?E.
Qed.

Lemma collect_loop_run sw n :
  forall i out tr,
  exists evs,
    collect_loop sw n i out tr =
      Some (out ++ folder_paths sw (range i n), tr ++ evs)
    /\ from Capture evs.
Proof.
  unfold folder_paths.
  induction n as [|n IH]; intros i out tr.
  - exists []. simpl. unfold ret. rewrite !app_nil_r.
    split; [reflexivity | constructor].
  - cbn [collect_loop range flat_map]. unfold folder_path at 1, location.
    assert (next : forall o pre,
              from Capture pre ->
              exists evs,
                collect_loop sw n (i + 1) o (tr ++ pre) =
                  Some (o ++ flat_map (fun j => match folder_path sw j with
                                                | Some p => [p]
                                                | None => []
                                                end) (range (i + 1) n),
                        tr ++ evs)
                /\ from Capture evs).
    { intros o pre Fpre. destruct (IH (i + 1) o (tr ++ pre)) as (evs & -> & F).
      exists (pre ++ evs). rewrite <- app_assoc.
      split; [reflexivity | now apply from_app]. }
    destruct (Item sw i) as [disp|].
    2:{ cbv [bind emit ret lift]. apply (next out [EvItem i]). from_list. }
    destruct (QueryInterface_IWebBrowserApp disp) as [app|].
    2:{ cbv [bind emit ret lift]. rewrite <- !app_assoc.
        apply (next out ([EvItem i] ++ [EvQueryInterface i]
                          ++ [EvReleaseDisp i])). from_list. }
    destruct (get_LocationURL app) as [burl|].
    2:{ cbv [bind emit ret lift]. rewrite <- !app_assoc.
        apply (next out ([EvItem i] ++ [EvQueryInterface i]
                          ++ [EvGetLocationURL i] ++ [EvReleaseApp i]
                          ++ [EvReleaseDisp i])). from_list. }
    destruct (urlToPath_returns _ (c_str_valid burl)) as [p ->].
    cbv [bind emit ret lift]. rewrite <- !app_assoc.
    destruct p as [|c p].
    + apply (next out ([EvItem i] ++ [EvQueryInterface i]
                        ++ [EvGetLocationURL i] ++ [EvSysFreeString i]
                        ++ [EvReleaseApp i] ++ [EvReleaseDisp i])). from_list.
    + rewrite (app_assoc out [c :: p]).
      apply (next (out ++ [c :: p])
                  ([EvItem i] ++ [EvQueryInterface i]
                    ++ [EvGetLocationURL i] ++ [EvSysFreeString i]
                    ++ [EvReleaseApp i] ++ [EvReleaseDisp i])). from_list.
Qed.

Lemma collectOpenFolderPaths_run os out0 tr :
  exists evs,
    collectOpenFolderPaths os out0 tr = Some (captured os, tr ++ evs)
    /\ from Capture evs.
Proof.
  unfold collectOpenFolderPaths, captured.
  destruct (CoCreateInstance_ShellWindows os) as [sw|].
  2:{ destruct (CoInitializeEx os); cbv [bind emit ret];
      rewrite <- !app_assoc; eexists; (split; [reflexivity | from_list]). }
  destruct (get_Count sw) as [count|].
  2:{ destruct (CoInitializeEx os); cbv [bind emit ret];
      rewrite <- !app_assoc; eexists; (split; [reflexivity | from_list]). }
  cbv [bind emit ret].
  match goal with
  | |- context [collect_loop sw ?n ?i ?o ?t] =>
      destruct (collect_loop_run sw n i o t) as (evs & -> & F)
  end.
  destruct (CoInitializeEx os); cbv beta iota; rewrite <- !app_assoc;
    eexists; (split; [reflexivity | from_solve]).
Qed.

Lemma range_In j n : forall i, In j (range i n) <-> i <= j < i + Z.of_nat n.
Proof.
  induction n as [|n IH]; intros i.
  - simpl. lia.
  - cbn [range In]. rewrite IH. lia.
Qed.

Lemma folder_paths_In sw l p :
  In p (folder_paths sw l) <-> exists i, In i l /\ folder_path sw i = Some p.
Proof.
  unfold folder_paths. rewrite in_flat_map. split.
  - intros (i & Hi & Hp). exists i. split; [exact Hi|].
    destruct (folder_path sw i); [|destruct Hp].
    destruct Hp as [-> | []]. reflexivity.
  - intros (i & Hi & E). exists i. split; [exact Hi|]. rewrite E. now left.
Qed.

Lemma folder_path_spec sw i p :
  folder_path sw i = Some p <->
  exists burl, location sw i = Some burl
               /\ urlToPath (Some (c_str burl)) = Some p /\ p <> [].
Proof.
  unfold folder_path. split.
  - destruct (location sw i) as [burl|]; [|discriminate].
    destruct (urlToPath (Some (c_str burl))) as [[|c q]|] eqn:U;
      try discriminate.
    intros H. injection H as <-. exists burl.
    split; [reflexivity | split; [exact U | discriminate]].
  - intros (burl & -> & -> & N). destruct p; [congruence | reflexivity].
Qed.

(** C3.  For every window collection, the list the enumerator returns holds
    an entry exactly for the windows whose location identifier is there and
    decodes to a non-empty native path, and its order is the order of the
    indices of the collection, from 0 on. *)
Theorem collectOpenFolderPaths_real_folders os sw count out0 tr :
  CoCreateInstance_ShellWindows os = Some sw ->
  get_Count sw = Some count ->
  exists out tr',
    collectOpenFolderPaths os out0 tr = Some (out, tr')
    /\ map Some out
       = map (folder_path sw) (filter (has_folder_path sw) (enumeration count))
    /\ (forall p, In p out <->
          exists i burl,
            0 <= i < count /\ location sw i = Some burl
            /\ urlToPath (Some (c_str burl)) = Some p /\ p <> []).
Proof.
  intros Hsw Hc.
  destruct (collectOpenFolderPaths_run os out0 tr) as (evs & E & _).
  exists (captured os), (tr ++ evs). split; [exact E|].
  unfold captured. rewrite Hsw, Hc. split; [apply folder_paths_filter|].
  intros p. rewrite folder_paths_In. unfold enumeration. split.
  - intros (i & Hi & Hp). apply range_In in Hi.
    apply folder_path_spec in Hp as (burl & L & U & N).
    exists i, burl. repeat split; try assumption; lia.
  - intros (i & burl & Hi & L & U & N). exists i. split.
    + apply range_In. lia.
    + apply folder_path_spec. now exists burl.
Qed.

Lemma collectOpenFolderPaths_real_folders_witness :
  exists out tr',
    collectOpenFolderPaths sample_os [] [] = Some (out, tr')
    /\ map Some out = [Some [67; 58; 92; 97]; Some [68; 58; 92]].
Proof.
  destruct (collectOpenFolderPaths_real_folders sample_os sample_windows 4
              [] [] eq_refl eq_refl) as (out & tr' & E & Mp & _).
  exists out, tr'. split; [exact E | exact Mp].
Defined.

(** ** Process reaper *)

Lemma wstring_eqb_true a b : wstring_eqb a b = true <-> a = b.
Proof.
  unfold wstring_eqb. destruct (list_eq_dec Z.eq_dec a b); split;
    congruence.
Qed.

Lemma lstrcmpiW_zero a :
  forall b, lstrcmpiW a b = 0 <-> map CharLower a = map CharLower b.
Proof.
  induction a as [|x a IH]; intros [|y b]; simpl;
    try (split; [lia | discriminate]); [tauto|].
  destruct (Z.ltb_spec (CharLower x) (CharLower y)).
  { split; [lia | intros E; injection E; lia]. }
  destruct (Z.ltb_spec (CharLower y) (CharLower x)).
  { split; [lia | intros E; injection E; lia]. }
  rewrite IH. replace (CharLower y) with (CharLower x) by lia.
  split; [congruence | intros E; now injection E].
Qed.

Lemma lstrcmpiW_same_name a b : (lstrcmpiW a b =? 0) = same_name a b.
Proof.
  apply eq_iff_eq_true. unfold same_name.
  rewrite Z.eqb_eq, wstring_eqb_true. apply lstrcmpiW_zero.
Qed.

Ltac trace_eq :=
  rewrite <- ?app_assoc; cbn [app]; rewrite ?app_nil_r;
  try reflexivity.

Lemma kill_loop_run os rest :
  forall pe tr,
    kill_loop os pe rest tr =
      Some (tt, tr ++ flat_map (attempt os) (filter is_explorer (pe :: rest))).
Proof.
  induction rest as [|pe' rest IH]; intros pe tr;
    cbn [kill_loop filter]; rewrite lstrcmpiW_same_name;
    fold (is_explorer pe); unfold bind at 1.
  - destruct (is_explorer pe); cbn [filter flat_map]; unfold attempt.
    + destruct (OpenProcess os (th32ProcessID pe)); cbv [bind emit ret];
        trace_eq.
    + cbv [ret]. trace_eq.
  - destruct (is_explorer pe).
    + cbn [flat_map]. unfold attempt at 1.
      destruct (OpenProcess os (th32ProcessID pe)); cbv [bind emit ret];
        rewrite IH; cbn [filter]; trace_eq.
    + cbv [ret]. now rewrite IH.
Qed.

Lemma killAllExplorer_run os tr :
  killAllExplorer os tr = Some (tt, tr ++ reaper_events os).
Proof.
  unfold killAllExplorer, reaper_events. rewrite !bind_emit.
  destruct (CreateToolhelp32Snapshot os) as [[|pe rest]|].
  - cbv [bind emit ret]. trace_eq.
  - unfold bind. rewrite kill_loop_run. cbv [emit]. trace_eq.
  - cbv [ret]. trace_eq.
Qed.

Lemma attempts_from os l : from Terminate (flat_map (attempt os) l).
Proof.
  induction l as [|pe l IH]; cbn [flat_map]; [constructor|].
  unfold attempt. destruct (OpenProcess os (th32ProcessID pe)); from_solve.
Qed.

Lemma reaper_events_from os : from Terminate (reaper_events os).
Proof.
  unfold reaper_events. pose proof (attempts_from os) as A.
  destruct (CreateToolhelp32Snapshot os) as [snap|]; [specialize (A (filter is_explorer snap))|];
    from_solve.
Qed.

Lemma attempts_entries os f l : entries f (flat_map (attempt os) l) = 0%nat.
Proof.
  unfold entries. induction l as [|pe l IH]; cbn [flat_map]; [reflexivity|].
  rewrite filter_app, length_app, IH. unfold attempt.
  destruct (OpenProcess os (th32ProcessID pe)); reflexivity.
Qed.

Lemma entries_app f t1 t2 :
  entries f (t1 ++ t2) = (entries f t1 + entries f t2)%nat.
Proof. unfold entries. now rewrite filter_app, length_app. Qed.

Lemma reaper_events_entries os :
  entries Fn_killAllExplorer (reaper_events os) = 1%nat.
Proof.
  unfold reaper_events. rewrite entries_app.
  destruct (CreateToolhelp32Snapshot os);
    [rewrite entries_app, attempts_entries|]; reflexivity.
Qed.

Lemma opened_pids_attempts os l :
  opened_pids (flat_map (attempt os) l) = map th32ProcessID l.
Proof.
  unfold opened_pids. induction l as [|pe l IH]; [reflexivity|].
  cbn [flat_map map]. rewrite flat_map_app, IH. unfold attempt.
  destruct (OpenProcess os (th32ProcessID pe)); reflexivity.
Qed.

Lemma terminated_attempts os l :
  terminated_handles (flat_map (attempt os) l) = flat_map (openable os) l.
Proof.
  unfold terminated_handles. induction l as [|pe l IH]; [reflexivity|].
  cbn [flat_map]. rewrite flat_map_app, IH. unfold attempt, openable.
  destruct (OpenProcess os (th32ProcessID pe)); reflexivity.
Qed.

(** [EXPLORER.EXE] matches [explorer.exe]; [explorer.exe.bak] does not. *)
Example is_explorer_upper :
  is_explorer {| th32ProcessID := 100;
                 szExeFile := c_str [69; 88; 80; 76; 79; 82; 69; 82; 46;
                                     69; 88; 69] |} = true
  /\ is_explorer {| th32ProcessID := 101;
                    szExeFile := c_str (explorer_exe ++ [46; 98; 97; 107])
                 |} = false.
Proof. split; reflexivity. Qed.

(** C4.  For every process snapshot, whatever the number of its entries
    whose executable name is that of the file manager up to the case of the
    letters: the reaper asks once to open each such entry, in the order of
    the snapshot, terminates once each of them that could be opened, and
    opens or terminates nothing else. *)
Theorem killAllExplorer_once_per_match os snap tr :
  CreateToolhelp32Snapshot os = Some snap ->
  exists evs,
    killAllExplorer os tr = Some (tt, tr ++ evs)
    /\ evs = [EvEnter Fn_killAllExplorer; EvCreateToolhelp32Snapshot]
             ++ flat_map (attempt os) (filter is_explorer snap)
             ++ [EvCloseSnapshot]
    /\ opened_pids evs = map th32ProcessID (filter is_explorer snap)
    /\ terminated_handles evs
       = flat_map (openable os) (filter is_explorer snap).
Proof.
  intros Hs. exists (reaper_events os).
  split; [apply killAllExplorer_run|].
  unfold reaper_events. rewrite Hs. split; [reflexivity|].
  unfold opened_pids, terminated_handles. cbn [app flat_map].
  rewrite !flat_map_app. cbn [flat_map]. rewrite !app_nil_r.
  split; [apply opened_pids_attempts | apply terminated_attempts].
Qed.

Lemma killAllExplorer_once_per_match_witness :
  exists evs,
    killAllExplorer sample_os [] = Some (tt, [] ++ evs)
    /\ opened_pids evs = [100; 200]
    /\ terminated_handles evs = [7].
Proof.
  destruct (killAllExplorer_once_per_match sample_os sample_snapshot []
              eq_refl) as (evs & E & _ & O & T).
  exists evs. split; [exact E | split; [exact O | exact T]].
Defined.

(** ** Folder replay *)

Lemma skipn_nth_error {A} (l : list A) :
  forall i p, nth_error l i = Some p -> skipn i l = p :: skipn (S i) l.
Proof.
  induction l as [|x l IH]; intros [|i] p H; try discriminate.
  - now injection H as ->.
  - cbn [nth_error] in H. rewrite skipn_cons. now apply IH.
Qed.

Lemma reopen_loop_run paths n :
  forall i tr,
    (i + n = length paths)%nat ->
    reopen_loop paths n i tr =
      Some (tt, tr ++ flat_map open_request (skipn i paths)).
Proof.
  induction n as [|n IH]; intros i tr H; cbn [reopen_loop].
  - replace i with (length paths) by lia.
    rewrite skipn_all. cbv [ret]. trace_eq.
  - destruct (nth_error paths i) as [p|] eqn:E.
    2:{ apply nth_error_None in E. lia. }
    rewrite (skipn_nth_error _ _ _ E). cbv [bind lift emit].
    rewrite IH by lia. cbn [flat_map]. unfold open_request at 2. trace_eq.
Qed.

Lemma reopenFolders_run paths tr :
  reopenFolders paths tr =
    Some (tt, tr ++ EvEnter Fn_reopenFolders :: flat_map open_request paths).
Proof.
  unfold reopenFolders. rewrite bind_emit, reopen_loop_run by reflexivity.
  cbn [skipn]. trace_eq.
Qed.

Lemma open_requests_replay paths :
  open_requests (flat_map open_request paths) = map target paths.
Proof.
  unfold open_requests.
  induction paths as [|p paths IH]; [reflexivity|].
  cbn [flat_map map app open_request]. now rewrite IH.
Qed.

Lemma replay_from paths : from Replay (flat_map open_request paths).
Proof.
  induction paths as [|p paths IH]; cbn [flat_map]; [constructor|].
  unfold open_request. from_solve.
Qed.

Lemma replay_events_from opened : from Replay (replay_events opened).
Proof.
  destruct opened as [|p l]; [constructor|]. unfold replay_events.
  pose proof (replay_from (p :: l)). from_solve.
Qed.

Lemma open_requests_app t1 t2 :
  open_requests (t1 ++ t2) = open_requests t1 ++ open_requests t2.
Proof. apply flat_map_app. Qed.

(** Events of the capture and of the termination are no open-requests and
    no entries into the replay; events outside the termination are no
    entries into the reaper. *)
Lemma other_component_quiet c t :
  from c t -> c <> Replay ->
  open_requests t = [] /\ entries Fn_reopenFolders t = 0%nat.
Proof.
  intros F N. induction F as [|e t He _ [IH1 IH2]]; [now split|].
  unfold open_requests, entries in *. cbn [flat_map filter].
  rewrite IH1. destruct e as [[]| | | | | | | | | | | | | | | | | | |];
    cbn in He; try (now split); congruence.
Qed.

Lemma other_component_no_reaper c t :
  from c t -> c <> Terminate -> entries Fn_killAllExplorer t = 0%nat.
Proof.
  intros F N. induction F as [|e t He _ IH]; [reflexivity|].
  unfold entries in *. cbn [filter].
  destruct e as [[]| | | | | | | | | | | | | | | | | | |];
    cbn in He; try exact IH; congruence.
Qed.

(** ** Orchestrator *)

Lemma wmain_run os tr0 :
  exists t1,
    collectOpenFolderPaths os [] tr0 = Some (captured os, tr0 ++ t1)
    /\ from Capture t1
    /\ wmain os tr0 =
         Some (0, tr0 ++ t1 ++ reaper_events os
                      ++ replay_events (captured os)).
Proof.
  destruct (collectOpenFolderPaths_run os [] tr0) as (t1 & E & F).
  exists t1. split; [exact E | split; [exact F|]].
  unfold wmain, bind at 1. rewrite E.
  unfold bind at 1. rewrite killAllExplorer_run.
  destruct (captured os) as [|p l]; unfold bind at 1.
  - cbv [ret replay_events]. trace_eq.
  - rewrite reopenFolders_run. cbv [ret replay_events]. trace_eq.
Qed.

(** C1.  Whatever list the capture returns: the run issues one open-request
    per captured path, in the order of the capture, each followed by the
    pause of 100 ms, so that a pause separates any two consecutive
    requests; with an empty list the replay is not entered and no request
    is issued at all. *)
Theorem wmain_one_request_per_path os opened t1 :
  collectOpenFolderPaths os [] [] = Some (opened, t1) ->
  exists t2 t3,
    killAllExplorer os t1 = Some (tt, t1 ++ t2)
    /\ wmain os [] = Some (0, t1 ++ t2 ++ t3)
    /\ open_requests (t1 ++ t2 ++ t3) = map target opened
    /\ length (open_requests (t1 ++ t2 ++ t3)) = length opened
    /\ (opened = [] ->
        t3 = [] /\ entries Fn_reopenFolders (t1 ++ t2 ++ t3) = 0%nat)
    /\ (opened <> [] ->
        t3 = EvEnter Fn_reopenFolders :: flat_map open_request opened).
Proof.
  intros E.
  destruct (wmain_run os []) as (t1' & E' & F1 & W).
  rewrite E in E'. injection E' as -> <-. cbn [app] in W.
  pose proof (reaper_events_from os) as F2.
  assert (N1 : Capture <> Replay) by discriminate.
  assert (N2 : Terminate <> Replay) by discriminate.
  destruct (other_component_quiet _ _ F1 N1) as [Q1 Z1].
  destruct (other_component_quiet _ _ F2 N2) as [Q2 Z2].
  assert (R : open_requests (t1 ++ reaper_events os
                              ++ replay_events (captured os))
              = map target (captured os)).
  { rewrite !open_requests_app, Q1, Q2. cbn [app].
    destruct (captured os) as [|p l]; [reflexivity|].
    unfold replay_events.
    change (EvEnter Fn_reopenFolders :: flat_map open_request (p :: l))
      with ([EvEnter Fn_reopenFolders] ++ flat_map open_request (p :: l)).
    rewrite open_requests_app. apply open_requests_replay. }
  exists (reaper_events os), (replay_events (captured os)).
  split; [apply killAllExplorer_run|].
  split; [exact W|]. split; [exact R|].
  split; [now rewrite R, length_map|]. split.
  - intros ->. split; [reflexivity|].
    cbn [replay_events]. now rewrite !entries_app, Z1, Z2.
  - intros N. destruct (captured os); [congruence | reflexivity].
Qed.

Lemma wmain_one_request_per_path_witness :
  exists t1 t2 t3,
    wmain sample_os [] = Some (0, t1 ++ t2 ++ t3)
    /\ open_requests (t1 ++ t2 ++ t3) = [[67; 58; 92; 97]; [68; 58; 92]].
Proof.
  destruct (wmain_one_request_per_path sample_os
              [[67; 58; 92; 97]; [68; 58; 92]]
              (trace_of (collectOpenFolderPaths sample_os [] []))
              eq_refl) as (t2 & t3 & _ & W & R & _).
  eexists _, t2, t3. split; [exact W | exact R].
Defined.

(** C6.  In every run the reaper is entered exactly once; everything the
    capture does comes before it and everything the replay does comes
    after it; and this holds whatever the capture returned, the empty list
    included. *)
Theorem wmain_reaper_once_between os :
  exists t1 t2 t3,
    wmain os [] = Some (0, t1 ++ (EvEnter Fn_killAllExplorer :: t2) ++ t3)
    /\ collectOpenFolderPaths os [] [] = Some (captured os, t1)
    /\ killAllExplorer os t1
       = Some (tt, t1 ++ EvEnter Fn_killAllExplorer :: t2)
    /\ from Capture t1
    /\ from Terminate (EvEnter Fn_killAllExplorer :: t2)
    /\ from Replay t3
    /\ t3 = replay_events (captured os)
    /\ entries Fn_killAllExplorer
         (t1 ++ (EvEnter Fn_killAllExplorer :: t2) ++ t3) = 1%nat.
Proof.
  destruct (wmain_run os []) as (t1 & E & F1 & W). cbn [app] in E, W.
  pose proof (reaper_events_from os) as F2.
  pose proof (reaper_events_entries os) as N2.
  pose proof (killAllExplorer_run os t1) as K.
  pose proof (replay_events_from (captured os)) as F3.
  assert (Z1 : entries Fn_killAllExplorer t1 = 0%nat)
    by (eapply other_component_no_reaper; [exact F1 | discriminate]).
  assert (Z3 : entries Fn_killAllExplorer (replay_events (captured os))
               = 0%nat)
    by (eapply other_component_no_reaper; [exact F3 | discriminate]).
  assert (H2 : exists t2, reaper_events os = EvEnter Fn_killAllExplorer :: t2)
    by (unfold reaper_events; cbn [app]; eauto).
  destruct H2 as [t2 H2]. rewrite H2 in *.
  exists t1, t2, (replay_events (captured os)).
  split; [exact W|]. split; [exact E|]. split; [exact K|].
  split; [exact F1|]. split; [exact F2|]. split; [exact F3|].
  split; [reflexivity|].
  rewrite !entries_app, Z1, Z3, N2. reflexivity.
Qed.

(** C7.  Every run ends and returns 0, whatever the operating system
    answers to the calls of the capture and of the termination (the answers
    to the open-requests are not read at all); the two entry points of the
    graphical subsystem return the same. *)
Theorem wmain_returns_zero os :
  exists tr,
    wmain os [] = Some (0, tr)
    /\ wWinMain os [] = Some (0, tr)
    /\ WinMain os [] = Some (0, tr).
Proof.
  destruct (wmain_run os []) as (t1 & _ & _ & W).
  eexists. repeat split; exact W.
Qed.

(** The sample session from end to end: the two folders are captured, the
    two file managers are asked for, the one that can be opened is
    terminated, and the two folders are reopened in the order of their
    windows. *)
Example sample_session :
  wmain sample_os [] =
  Some (0,
    [EvEnter Fn_collectOpenFolderPaths; EvCoInitializeEx;
     EvCoCreateInstance; EvGetCount;
     EvItem 0; EvQueryInterface 0; EvGetLocationURL 0; EvSysFreeString 0;
     EvReleaseApp 0; EvReleaseDisp 0;
     EvItem 1; EvQueryInterface 1; EvGetLocationURL 1; EvSysFreeString 1;
     EvReleaseApp 1; EvReleaseDisp 1;
     EvItem 2;
     EvItem 3; EvQueryInterface 3; EvGetLocationURL 3; EvSysFreeString 3;
     EvReleaseApp 3; EvReleaseDisp 3;
     EvReleaseShellWindows; EvCoUninitialize;
     EvEnter Fn_killAllExplorer; EvCreateToolhelp32Snapshot;
     EvOpenProcess 100; EvTerminateProcess 7 0;
     EvWaitForSingleObject 7 2000; EvCloseHandle 7;
     EvOpenProcess 200; EvCloseSnapshot;
     EvEnter Fn_reopenFolders;
     EvShellExecuteW open_verb [67; 58; 92; 97] SW_SHOWNORMAL; EvSleep 100;
     EvShellExecuteW open_verb [68; 58; 92] SW_SHOWNORMAL; EvSleep 100]).
Proof. reflexivity. Qed.

(** * Further properties of the path codec *)

Lemma wcs_cons c p : c <> 0 -> wcs (c :: p) = c :: wcs p.
Proof. intros H. simpl. now destruct (Z.eqb_spec c 0). Qed.

Lemma wcs_nonnull p : ~ In 0 (wcs p).
Proof.
  induction p as [|c p IH]; simpl; [tauto|].
  destruct (Z.eqb_spec c 0); simpl; [tauto|]. intuition congruence.
Qed.

Lemma wcs_app_null w t : ~ In 0 w -> wcs (w ++ 0 :: t) = w.
Proof.
  induction w as [|c w IH]; intros H; [reflexivity|].
  cbn [app]. rewrite wcs_cons by (intros ->; apply H; now left).
  rewrite IH; [reflexivity | intros H'; apply H; now right].
Qed.

(** The cases of the loop, as an induction principle: [P p out r] is to
    hold of every pointer [p], string [out] and result [r] of the loop on
    them. *)
Lemma urlToPath_loop_cases (P : wptr -> wstring -> option wstring -> Prop) :
  (forall out, P [] out None) ->
  (forall p out, P (0 :: p) out (Some out)) ->
  (forall p out,
      P p (out ++ [92]) (urlToPath_loop p (out ++ [92])) ->
      P (47 :: p) out (urlToPath_loop p (out ++ [92]))) ->
  (forall c p out,
      c <> 0 -> c <> 47 -> c <> 37 ->
      P p (out ++ [c]) (urlToPath_loop p (out ++ [c])) ->
      P (c :: p) out (urlToPath_loop p (out ++ [c]))) ->
  (forall out, P [37] out None) ->
  (forall c1 out, c1 <> 0 -> P [37; c1] out None) ->
  (forall c1 p out,
      (c1 = 0 \/ exists p', p = 0 :: p') ->
      P (c1 :: p) (out ++ [37]) (urlToPath_loop (c1 :: p) (out ++ [37])) ->
      P (37 :: c1 :: p) out (urlToPath_loop (c1 :: p) (out ++ [37]))) ->
  (forall c1 c2 p out,
      c1 <> 0 -> c2 <> 0 -> decodes c1 c2 = true ->
      P p (out ++ [wchar_cast (fst (wcstol [c1; c2; 0] 16))])
        (urlToPath_loop p
           (out ++ [wchar_cast (fst (wcstol [c1; c2; 0] 16))])) ->
      P (37 :: c1 :: c2 :: p) out
        (urlToPath_loop p
           (out ++ [wchar_cast (fst (wcstol [c1; c2; 0] 16))]))) ->
  (forall c1 c2 p out,
      c1 <> 0 -> c2 <> 0 -> decodes c1 c2 = false ->
      P (c1 :: c2 :: p) (out ++ [37])
        (urlToPath_loop (c1 :: c2 :: p) (out ++ [37])) ->
      P (37 :: c1 :: c2 :: p) out
        (urlToPath_loop (c1 :: c2 :: p) (out ++ [37]))) ->
  forall p out, P p out (urlToPath_loop p out).
Proof.
  intros Hnil Hnull Hslash Hplain H37 H37c Hshort Hdec Hkeep p.
  unfold wptr, wstring, wchar_t in *.
  induction p as [p IH] using list_length_ind. intros out.
  destruct p as [|c p1]; [apply Hnil|].
  destruct (Z.eq_dec c 0) as [->|N0]; [apply Hnull|].
  destruct (Z.eq_dec c 47) as [->|N47].
  { rewrite urlToPath_loop_slash. apply Hslash, IH. simpl. lia. }
  destruct (Z.eq_dec c 37) as [->|N37].
  2:{ rewrite urlToPath_loop_plain by assumption.
      apply Hplain; try assumption. apply IH. simpl. lia. }
  destruct p1 as [|c1 p2]; [apply H37|].
  destruct (Z.eq_dec c1 0) as [->|N1].
  { change (urlToPath_loop (37 :: 0 :: p2) out)
      with (urlToPath_loop (0 :: p2) (out ++ [37])).
    apply Hshort; [now left | apply IH; simpl; lia]. }
  destruct p2 as [|c2 p3].
  { replace (urlToPath_loop [37; c1] out) with (@None wstring).
    - now apply H37c.
    - simpl. now destruct (Z.eqb_spec c1 0). }
  destruct (Z.eq_dec c2 0) as [->|N2].
  { replace (urlToPath_loop (37 :: c1 :: 0 :: p3) out)
      with (urlToPath_loop (c1 :: 0 :: p3) (out ++ [37])).
    - apply Hshort; [right; now exists p3 | apply IH; simpl; lia].
    - rewrite (urlToPath_loop_percent_step c1 0 p3 out).
      now destruct (c1 =? 0). }
  rewrite urlToPath_loop_percent by assumption.
  destruct (decodes c1 c2) eqn:D.
  - apply Hdec; try assumption. apply IH. simpl. lia.
  - apply Hkeep; try assumption. apply IH. simpl. lia.
Qed.

(** ** The scheme test as a prefix test *)

(** X1.  [startsWith] is the prefix test: on a string that ends, null
    included, and a prefix literal, it has a result, no read leaving the
    string even when it is shorter than the prefix, and the result is true
    exactly when the string begins with the characters of the prefix; with
    a null string or a null prefix the result is false. *)
Theorem startsWith_is_prefix_test (s : option wptr) (pre : wstring) :
  valid_wptr s -> ~ In 0 pre ->
  exists b,
    startsWith s (Some (c_str pre)) = Some b
    /\ (b = true <-> exists rest, s = Some (pre ++ rest))
    /\ startsWith s None = Some false.
Proof.
  intros V Hpre. destruct s as [u|].
  - destruct (startsWith_loop_spec pre Hpre u V) as [[E [rest ->]] | [E N]].
    + exists true. repeat split; [exact E | now exists rest].
    + exists false. repeat split; [exact E | discriminate |].
      intros [rest R]. exfalso. apply N. exists rest. now injection R.
  - exists false. repeat split; [discriminate|].
    intros [rest R]. discriminate R.
Qed.

Lemma startsWith_is_prefix_test_witness :
  exists b,
    startsWith (Some (c_str [102; 105])) (Some (c_str [102; 105; 108]))
      = Some b
    /\ (b = true <-> exists rest, Some (c_str [102; 105])
                                   = Some ([102; 105; 108] ++ rest))
    /\ startsWith (Some (c_str [102; 105])) None = Some false.
Proof.
  apply (startsWith_is_prefix_test (Some (c_str [102; 105]))
           [102; 105; 108]); simpl; intuition lia.
Defined.

(** ** Percent sequences *)

Lemma wcstol_lead_hex c1 c2 d2 :
  digit_in 16 c2 = Some d2 ->
  iswspace c1 = true \/ c1 = 43 \/ c1 = 45 ->
  wcstol [c1; c2; 0] 16 = ((if c1 =? 45 then - d2 else d2), [0]).
Proof.
  intros D2 H1.
  destruct (digit_in_16_char _ _ D2) as (R2 & W2 & _ & M2 & P2 & _).
  assert (S2 : skip_sign [c2; 0] = (false, [c2; 0])).
  { unfold skip_sign. destruct (Z.eqb_spec c2 45); [congruence|].
    destruct (Z.eqb_spec c2 43); [congruence | reflexivity]. }
  assert (C : forall v, -16 < v < 16 -> clamp_long v = v).
  { intros v Hv. unfold clamp_long, LONG_MIN, LONG_MAX.
    destruct (Z.ltb_spec v (-2147483648)); [lia|].
    destruct (Z.ltb_spec 2147483647 v); [lia | reflexivity]. }
  assert (D0 : digit_in 16 0 = None) by reflexivity.
  unfold wcstol. destruct H1 as [W1 | [-> | ->]].
  - assert ((c1 =? 45) = false) as ->.
    { destruct (Z.eqb_spec c1 45) as [->|]; [discriminate W1 | reflexivity]. }
    cbn [skip_space]. rewrite W1, W2, S2. cbn [skip_0x]. rewrite D2.
    cbn [scan_digits]. rewrite D0. now rewrite C by lia.
  - cbn [skip_space]. change (iswspace 43) with false.
    cbv iota. cbn [skip_sign]. change (43 =? 45) with false.
    change (43 =? 43) with true. cbv iota. cbn [skip_0x]. rewrite D2.
    cbn [scan_digits]. rewrite D0. now rewrite C by lia.
  - cbn [skip_space]. change (iswspace 45) with false.
    cbv iota. cbn [skip_sign]. change (45 =? 45) with true.
    cbv iota. cbn [skip_0x]. rewrite D2.
    cbn [scan_digits]. rewrite D0. now rewrite C by lia.
Qed.

(** X2.  What the loop does on a percent sign that two characters follow.
    Two hexadecimal digits: the character of their value is appended and
    the three characters are consumed.  White space or a plus sign, then a
    hexadecimal digit: the same, with the value of the one digit.  A minus
    sign, then a hexadecimal digit: the same, with the opposite of the
    value of the digit reduced to 16 bits.  Anything else: the percent sign
    is appended and the loop goes on at the character after it. *)
Theorem percent_sequence_cases c1 c2 p out :
  c1 <> 0 -> c2 <> 0 ->
  urlToPath_loop (37 :: c1 :: c2 :: p) out =
    match digit_in 16 c1, digit_in 16 c2 with
    | Some d1, Some d2 => urlToPath_loop p (out ++ [d1 * 16 + d2])
    | None, Some d2 =>
        if iswspace c1 || (c1 =? 43)
        then urlToPath_loop p (out ++ [d2])
        else if c1 =? 45
             then urlToPath_loop p (out ++ [(- d2) mod 65536])
             else urlToPath_loop (c1 :: c2 :: p) (out ++ [37])
    | _, None => urlToPath_loop (c1 :: c2 :: p) (out ++ [37])
    end.
Proof.
  intros N1 N2.
  rewrite urlToPath_loop_percent, decodes_iff by assumption.
  unfold is_hex.
  destruct (digit_in 16 c2) as [d2|] eqn:D2.
  2:{ now destruct (digit_in 16 c1). }
  destruct (digit_in_16_char _ _ D2) as (R2 & _).
  assert (V : forall v, wcstol [c1; c2; 0] 16 = (v, [0]) ->
            urlToPath_loop p
              (out ++ [wchar_cast (fst (wcstol [c1; c2; 0] 16))])
            = urlToPath_loop p (out ++ [v mod 65536])).
  { intros v E. unfold wptr, wstring, wchar_t in *. now rewrite E. }
  destruct (digit_in 16 c1) as [d1|] eqn:D1.
  - destruct (digit_in_16_char _ _ D1) as (R1 & _).
    cbn [andb orb]. rewrite (V _ (wcstol_two_hex _ _ _ _ D1 D2)).
    now rewrite Z.mod_small by lia.
  - cbn [andb orb].
    destruct (iswspace c1) eqn:W1.
    { cbn [orb].
      rewrite (V _ (wcstol_lead_hex c1 c2 d2 D2 (or_introl W1))).
      destruct (Z.eqb_spec c1 45) as [->|]; [discriminate W1|].
      now rewrite Z.mod_small by lia. }
    destruct (Z.eqb_spec c1 43) as [->|P1].
    { cbn [orb].
      rewrite (V _ (wcstol_lead_hex 43 c2 d2 D2
                      (or_intror (or_introl eq_refl)))).
      change (43 =? 45) with false. cbv iota.
      now rewrite Z.mod_small by lia. }
    destruct (Z.eqb_spec c1 45) as [->|M1]; cbn [orb]; [|reflexivity].
    rewrite (V _ (wcstol_lead_hex 45 c2 d2 D2
                    (or_intror (or_intror eq_refl)))).
    reflexivity.
Qed.

Lemma percent_sequence_cases_witness :
  urlToPath_loop (37 :: 45 :: 49 :: [0]) [97] =
    urlToPath_loop [0] ([97] ++ [(- 1) mod 65536]).
Proof.
  exact (percent_sequence_cases 45 49 [0] [97]
           ltac:(discriminate) ltac:(discriminate)).
Defined.

(** ** The length of the result *)

(** Each round of the loop appends one character and consumes at least
    one. *)
Ltac unalias := unfold wptr, wstring, wchar_t in *.

Lemma urlToPath_loop_length p out :
  forall r, urlToPath_loop p out = Some r ->
    (length out + (match wcs p with [] => 0 | _ :: _ => 1 end) <= length r
     /\ length r <= length out + length (wcs p))%nat.
Proof.
  apply (urlToPath_loop_cases
           (fun p out res => forall r, res = Some r ->
              (length out + (match wcs p with [] => 0 | _ :: _ => 1 end)
                 <= length r
               /\ length r <= length out + length (wcs p))%nat));
    clear p out.
  - discriminate.
  - intros p out r E. injection E as <-. simpl. unalias. lia.
  - intros p out IH r E. specialize (IH r E).
    rewrite wcs_cons by discriminate. rewrite length_app in IH.
    cbn [length] in *. destruct (wcs p); cbn [length] in *; unalias; lia.
  - intros c p out N0 _ _ IH r E. specialize (IH r E).
    rewrite wcs_cons by assumption. rewrite length_app in IH.
    cbn [length] in *. destruct (wcs p); cbn [length] in *; unalias; lia.
  - discriminate.
  - discriminate.
  - intros c1 p out _ IH r E. specialize (IH r E).
    rewrite wcs_cons by discriminate. rewrite length_app in IH.
    cbn [length] in *. destruct (wcs (c1 :: p)); cbn [length] in *; unalias; lia.
  - intros c1 c2 p out N1 N2 _ IH r E. specialize (IH r E).
    rewrite !wcs_cons by (assumption || discriminate).
    rewrite length_app in IH.
    cbn [length] in *. destruct (wcs p); cbn [length] in *; unalias; lia.
  - intros c1 c2 p out N1 N2 _ IH r E. specialize (IH r E).
    rewrite wcs_cons by discriminate. rewrite length_app in IH.
    cbn [length] in *. destruct (wcs (c1 :: c2 :: p)); cbn [length] in *; unalias; lia.
Qed.

(** X3.  The path is never longer than what follows the scheme in the
    identifier, up to its end, and it is not empty when something follows
    the scheme. *)
Theorem urlToPath_length_bounds rest :
  In 0 rest ->
  exists out,
    urlToPath (Some (file_scheme ++ rest)) = Some out
    /\ (length out <= length (wcs rest))%nat
    /\ (wcs rest <> [] -> out <> []).
Proof.
  intros H. rewrite urlToPath_file.
  destruct (urlToPath_loop_total rest H []) as [out E].
  exists out. split; [exact E|].
  destruct (urlToPath_loop_length rest [] out E) as [L U].
  cbn [length] in *. split; [lia|].
  intros N ->. destruct (wcs rest); [congruence | cbn [length] in L; lia].
Qed.

Lemma urlToPath_length_bounds_witness :
  exists out,
    urlToPath (Some (file_scheme ++ [67; 58; 47; 37; 52; 49; 0])) = Some out
    /\ (length out <= 6)%nat.
Proof.
  destruct (urlToPath_length_bounds [67; 58; 47; 37; 52; 49; 0])
    as (out & E & L & _).
  - simpl. intuition lia.
  - exists out. split; [exact E | exact L].
Defined.

(** X4.  The result is the empty string in two cases only: the identifier
    is not of the local-file form, or nothing follows the scheme in it. *)
Theorem urlToPath_empty_iff (url : option wptr) :
  valid_wptr url ->
  (urlToPath url = Some [] <->
   ~ local_file_form url
   \/ exists rest, url = Some (file_scheme ++ rest) /\ wcs rest = []).
Proof.
  intros V. split.
  - intros E. destruct url as [u|].
    2:{ left. intros [rest R]. discriminate R. }
    destruct (startsWith_loop_spec file_scheme file_scheme_nonnull u V)
      as [[_ [rest ->]] | [_ N]].
    + right. exists rest. split; [reflexivity|].
      rewrite urlToPath_file in E.
      destruct (urlToPath_loop_length rest [] [] E) as [L _].
      destruct (wcs rest); [reflexivity | cbn [length] in L; lia].
    + left. intros [rest R]. apply N. exists rest. now injection R.
  - intros [N | (rest & -> & W)].
    + now apply urlToPath_not_local.
    + rewrite urlToPath_file. cbn [valid_wptr] in V.
      apply in_app_iff in V as [V | V]; [destruct (file_scheme_nonnull V)|].
      destruct rest as [|c rest]; [destruct V|].
      simpl in W. destruct (Z.eqb_spec c 0) as [->|]; [|discriminate].
      reflexivity.
Qed.

Lemma urlToPath_empty_iff_witness :
  urlToPath (Some (c_str file_scheme)) = Some [].
Proof.
  apply (urlToPath_empty_iff (Some (c_str file_scheme))).
  - simpl. intuition lia.
  - right. exists [0]. split; reflexivity.
Defined.

(** ** Identifiers without escapes *)

Lemma urlToPath_loop_plain_run a :
  Forall plain a ->
  forall b out,
    urlToPath_loop (a ++ b) out = urlToPath_loop b (out ++ map to_native a).
Proof.
  induction 1 as [|c a [N0 N37] _ IH]; intros b out.
  - now rewrite app_nil_r.
  - cbn [app map]. unfold to_native at 1.
    destruct (Z.eqb_spec c 47) as [->|N47].
    + rewrite urlToPath_loop_slash, IH. now rewrite <- app_assoc.
    + rewrite urlToPath_loop_plain, IH by assumption.
      now rewrite <- app_assoc.
Qed.

Lemma to_native_no_slash a : ~ In 47 (map to_native a).
Proof.
  intros H. apply in_map_iff in H as (c & E & _). unfold to_native in E.
  destruct (Z.eqb_spec c 47); congruence.
Qed.

(** X5.  Where the identifier has no percent sign, the codec only replaces
    the separators: a run of characters without percent sign is appended
    character by character, each segment separator as the native separator,
    and the loop goes on behind it; so an identifier without percent sign
    gives a path of the same length, without any segment separator. *)
Theorem urlToPath_plain_identifier a :
  Forall plain a ->
  (forall b out,
      urlToPath_loop (a ++ b) out = urlToPath_loop b (out ++ map to_native a))
  /\ urlToPath (Some (c_str (file_scheme ++ a))) = Some (map to_native a)
  /\ length (map to_native a) = length a
  /\ ~ In 47 (map to_native a).
Proof.
  intros H. split; [now apply urlToPath_loop_plain_run|].
  split; [|split; [apply length_map | apply to_native_no_slash]].
  unfold c_str. rewrite <- app_assoc, urlToPath_file.
  now rewrite urlToPath_loop_plain_run.
Qed.

Lemma urlToPath_plain_identifier_witness :
  urlToPath (Some (c_str (file_scheme ++ [67; 58; 47; 97; 47; 98])))
  = Some (map to_native [67; 58; 47; 97; 47; 98]).
Proof.
  apply (urlToPath_plain_identifier [67; 58; 47; 97; 47; 98]).
  repeat constructor; discriminate.
Defined.

(** ** What lies behind the end of the string *)

Lemma urlToPath_loop_upto_null p out :
  In 0 p -> urlToPath_loop p out = urlToPath_loop (c_str (wcs p)) out.
Proof.
  apply (urlToPath_loop_cases
           (fun p out res =>
              In 0 p -> res = urlToPath_loop (c_str (wcs p)) out));
    clear p out.
  - intros out [].
  - reflexivity.
  - intros p out IH H. rewrite wcs_cons by discriminate.
    unfold c_str in *. cbn [app]. rewrite urlToPath_loop_slash.
    apply IH. destruct H; [discriminate | assumption].
  - intros c p out N0 N47 N37 IH H. rewrite wcs_cons by assumption.
    unfold c_str in *. cbn [app]. rewrite urlToPath_loop_plain by assumption.
    apply IH. destruct H; [congruence | assumption].
  - intros out H. simpl in H. intuition discriminate.
  - intros c1 out N1 H. simpl in H. intuition (discriminate || congruence).
  - intros c1 p out S IH H.
    assert (H' : In 0 (c1 :: p)) by (destruct H; [discriminate | assumption]).
    rewrite (IH H'). rewrite (wcs_cons 37) by discriminate.
    unfold c_str. cbn [app].
    destruct S as [-> | [p' ->]]; [reflexivity|].
    destruct (Z.eq_dec c1 0) as [->|N1]; [reflexivity|].
    rewrite wcs_cons by assumption. cbn [wcs app].
    change (0 =? 0) with true. cbv iota. cbn [app].
    symmetry.
    etransitivity; [apply (urlToPath_loop_percent_step c1 0 [] out)|].
    now destruct (c1 =? 0).
  - intros c1 c2 p out N1 N2 D IH H.
    rewrite !wcs_cons by (assumption || discriminate).
    unfold c_str in *. cbn [app].
    rewrite urlToPath_loop_percent, D by assumption.
    apply IH. destruct H as [H | [H | [H | H]]]; congruence || assumption.
  - intros c1 c2 p out N1 N2 D IH H.
    assert (H' : In 0 (c1 :: c2 :: p))
      by (destruct H; [discriminate | assumption]).
    rewrite (IH H'). rewrite !wcs_cons by (assumption || discriminate).
    unfold c_str. cbn [app].
    now rewrite (urlToPath_loop_percent c1 c2 _ out), D by assumption.
Qed.

Lemma file_scheme_prefix w rest :
  w ++ [0] = file_scheme ++ rest -> exists w', w = file_scheme ++ w'.
Proof.
  unfold file_scheme. intros H.
  do 8 (destruct w as [|? w]; [discriminate H|];
        cbn [app] in H; injection H as -> H).
  now exists w.
Qed.

Lemma startsWith_loop_upto_null pre :
  forall w t,
    startsWith_loop (w ++ 0 :: t) (c_str pre)
    = startsWith_loop (w ++ [0]) (c_str pre).
Proof.
  induction pre as [|c pre IH]; intros w t; [reflexivity|].
  unfold c_str in *. cbn [app startsWith_loop].
  destruct (Z.eqb_spec c 0) as [|N]; [reflexivity|].
  destruct w as [|d w]; cbn [app].
  - destruct (Z.eqb_spec 0 c); [congruence | reflexivity].
  - destruct (negb (d =? c)); [reflexivity | apply IH].
Qed.

(** X6.  The codec reads its argument up to the first null character:
    whatever lies behind it in memory does not change the result. *)
Theorem urlToPath_reads_to_first_null w t :
  ~ In 0 w ->
  urlToPath (Some (w ++ 0 :: t)) = urlToPath (Some (c_str w)).
Proof.
  intros Hw.
  assert (V : In 0 (w ++ [0])) by apply (c_str_valid w).
  pose proof (startsWith_loop_spec file_scheme file_scheme_nonnull
                (w ++ [0]) V) as S.
  unfold urlToPath, startsWith. rewrite startsWith_loop_upto_null.
  change (c_str w) with (w ++ [0]).
  destruct S as [[E [rest R]] | [E _]]; rewrite E; [|reflexivity].
  cbn [negb].
  destruct (file_scheme_prefix w rest R) as [w' ->].
  rewrite <- !app_assoc.
  change (skipn 8 (file_scheme ++ w' ++ 0 :: t)) with (w' ++ 0 :: t).
  change (skipn 8 (file_scheme ++ w' ++ [0])) with (w' ++ [0]).
  assert (Hw' : ~ In 0 w')
    by (intros H; apply Hw; apply in_app_iff; now right).
  rewrite urlToPath_loop_upto_null by (apply in_app_iff; right; now left).
  rewrite wcs_app_null by assumption. reflexivity.
Qed.

Lemma urlToPath_reads_to_first_null_witness :
  urlToPath (Some ((file_scheme ++ [97]) ++ 0 :: [37; 52; 49; 0]))
  = urlToPath (Some (c_str (file_scheme ++ [97]))).
Proof.
  apply (urlToPath_reads_to_first_null (file_scheme ++ [97])).
  simpl. intuition lia.
Defined.

(** ** The range of the characters *)

Lemma urlToPath_loop_range p out :
  Forall wchar_range p -> Forall wchar_range out ->
  forall r, urlToPath_loop p out = Some r -> Forall wchar_range r.
Proof.
  assert (snoc : forall (l : list Z) c,
            Forall wchar_range l -> wchar_range c ->
            Forall wchar_range (l ++ [c]))
    by (intros; apply Forall_app; split; [assumption | now constructor]).
  apply (urlToPath_loop_cases
           (fun p out res =>
              Forall wchar_range p -> Forall wchar_range out ->
              forall r, res = Some r -> Forall wchar_range r));
    clear p out.
  - discriminate.
  - intros p out _ Ho r E. now injection E as <-.
  - intros p out IH Hp Ho. inversion Hp; subst.
    apply IH; [assumption | apply snoc; [assumption | unfold wchar_range; lia]].
  - intros c p out _ _ _ IH Hp Ho. inversion Hp; subst.
    apply IH; [assumption | now apply snoc].
  - discriminate.
  - discriminate.
  - intros c1 p out _ IH Hp Ho. inversion Hp; subst.
    apply IH; [assumption | apply snoc; [assumption | unfold wchar_range; lia]].
  - intros c1 c2 p out _ _ _ IH Hp Ho.
    inversion Hp as [|? ? _ Hp1]; subst.
    inversion Hp1 as [|? ? _ Hp2]; subst.
    inversion Hp2 as [|? ? _ Hp3]; subst.
    apply IH; [assumption | apply snoc; [assumption|]].
    unfold wchar_range, wchar_cast. apply Z.mod_pos_bound. lia.
  - intros c1 c2 p out _ _ _ IH Hp Ho. inversion Hp; subst.
    apply IH; [assumption | apply snoc; [assumption | unfold wchar_range; lia]].
Qed.

(** X7.  The characters of the result are values of [wchar_t] when those
    of the identifier are: the cast of the number read by [wcstol] keeps
    them in range, also when the number is negative. *)
Theorem urlToPath_wchar_range u :
  In 0 u -> Forall wchar_range u ->
  exists out, urlToPath (Some u) = Some out /\ Forall wchar_range out.
Proof.
  intros V R. destruct (urlToPath_returns (Some u) V) as [out E].
  exists out. split; [exact E|].
  destruct (startsWith_loop_spec file_scheme file_scheme_nonnull u V)
    as [[_ [rest ->]] | [_ N]].
  - rewrite urlToPath_file in E. apply Forall_app in R as [_ R].
    exact (urlToPath_loop_range rest [] R (Forall_nil _) out E).
  - rewrite urlToPath_other in E by assumption.
    injection E as <-. constructor.
Qed.

Lemma urlToPath_wchar_range_witness :
  exists out,
    urlToPath (Some (c_str (file_scheme ++ [37; 45; 49]))) = Some out
    /\ Forall wchar_range out.
Proof.
  apply (urlToPath_wchar_range (c_str (file_scheme ++ [37; 45; 49]))).
  - simpl. intuition lia.
  - repeat constructor; unfold wchar_range; lia.
Defined.

(** * Further properties of the window enumerator *)

Ltac trace_norm :=
  repeat (progress (rewrite <- ?app_assoc; cbn [app]));
  rewrite ?app_nil_r; try reflexivity.

Lemma collect_loop_trace sw n :
  forall i out tr,
    collect_loop sw n i out tr =
      Some (out ++ folder_paths sw (range i n),
            tr ++ flat_map (window_events sw) (range i n)).
Proof.
  unfold folder_paths.
  induction n as [|n IH]; intros i out tr.
  - simpl. unfold ret. now rewrite !app_nil_r.
  - cbn [collect_loop range flat_map].
    unfold folder_path at 1, location, window_events at 1.
    destruct (Item sw i) as [disp|].
    2:{ cbv [bind emit ret lift]. rewrite IH. trace_eq. }
    destruct (QueryInterface_IWebBrowserApp disp) as [app|].
    2:{ cbv [bind emit ret lift]. rewrite IH. trace_eq. }
    destruct (get_LocationURL app) as [burl|].
    2:{ cbv [bind emit ret lift]. rewrite IH. trace_eq. }
    destruct (urlToPath_returns _ (c_str_valid burl)) as [p ->].
    cbv [bind emit ret lift]. rewrite IH. destruct p; trace_eq.
Qed.

Lemma collectOpenFolderPaths_trace os out0 tr :
  collectOpenFolderPaths os out0 tr
  = Some (captured os, tr ++ capture_events os).
Proof.
  unfold collectOpenFolderPaths, captured, capture_events.
  destruct (CoCreateInstance_ShellWindows os) as [sw|].
  2:{ destruct (CoInitializeEx os); cbv [bind emit ret]; trace_eq. }
  destruct (get_Count sw) as [count|].
  2:{ destruct (CoInitializeEx os); cbv [bind emit ret]; trace_eq. }
  cbv [bind emit ret]. rewrite collect_loop_trace. unfold enumeration.
  destruct (CoInitializeEx os); cbv beta iota; trace_norm.
Qed.

Lemma range_NoDup n : forall i, NoDup (range i n).
Proof.
  induction n as [|n IH]; intros i; cbn [range]; constructor; [|apply IH].
  rewrite range_In. lia.
Qed.

Lemma range_length n : forall i, length (range i n) = n.
Proof. induction n as [|n IH]; intros i; cbn [range length]; auto. Qed.

Lemma released_disps_windows sw l :
  released_disps (flat_map (window_events sw) l) = filter (has_item sw) l.
Proof.
  unfold released_disps. induction l as [|i l IH]; [reflexivity|].
  cbn [flat_map filter]. rewrite flat_map_app, IH.
  unfold window_events, has_item.
  destruct (Item sw i) as [disp|]; [|reflexivity].
  destruct (QueryInterface_IWebBrowserApp disp) as [app|]; [|reflexivity].
  destruct (get_LocationURL app); reflexivity.
Qed.

Lemma released_apps_windows sw l :
  released_apps (flat_map (window_events sw) l) = filter (has_app sw) l.
Proof.
  unfold released_apps. induction l as [|i l IH]; [reflexivity|].
  cbn [flat_map filter]. rewrite flat_map_app, IH.
  unfold window_events, has_app.
  destruct (Item sw i) as [disp|]; [|reflexivity].
  destruct (QueryInterface_IWebBrowserApp disp) as [app|]; [|reflexivity].
  destruct (get_LocationURL app); reflexivity.
Qed.

Lemma freed_strings_windows sw l :
  freed_strings (flat_map (window_events sw) l) = filter (has_location sw) l.
Proof.
  unfold freed_strings. induction l as [|i l IH]; [reflexivity|].
  cbn [flat_map filter]. rewrite flat_map_app, IH.
  unfold window_events, has_location, location.
  destruct (Item sw i) as [disp|]; [|reflexivity].
  destruct (QueryInterface_IWebBrowserApp disp) as [app|]; [|reflexivity].
  destruct (get_LocationURL app); reflexivity.
Qed.

(** X8.  The window enumerator releases what it obtained, once each and
    nothing else: a window object for each index at which one was fetched,
    a browser object for each window that is a browser window, a string for
    each browser window that has a location; the indices of a collection
    are all different. *)
Theorem collectOpenFolderPaths_releases os sw count out0 tr :
  CoCreateInstance_ShellWindows os = Some sw ->
  get_Count sw = Some count ->
  exists out evs,
    collectOpenFolderPaths os out0 tr = Some (out, tr ++ evs)
    /\ NoDup (enumeration count)
    /\ released_disps evs = filter (has_item sw) (enumeration count)
    /\ released_apps evs = filter (has_app sw) (enumeration count)
    /\ freed_strings evs = filter (has_location sw) (enumeration count).
Proof.
  intros Hsw Hc. exists (captured os), (capture_events os).
  split; [apply collectOpenFolderPaths_trace|].
  split; [apply range_NoDup|].
  unfold capture_events. rewrite Hsw, Hc.
  unfold released_disps, released_apps, freed_strings.
  rewrite !flat_map_app. cbn [flat_map app]. rewrite !flat_map_app.
  fold (released_disps (flat_map (window_events sw) (enumeration count))).
  fold (released_apps (flat_map (window_events sw) (enumeration count))).
  fold (freed_strings (flat_map (window_events sw) (enumeration count))).
  rewrite released_disps_windows, released_apps_windows,
    freed_strings_windows.
  destruct (CoInitializeEx os); cbn [flat_map app]; rewrite !app_nil_r;
    repeat split.
Qed.

Lemma collectOpenFolderPaths_releases_witness :
  exists out evs,
    collectOpenFolderPaths sample_os [] [] = Some (out, [] ++ evs)
    /\ released_disps evs = [0; 1; 3]
    /\ freed_strings evs = [0; 1; 3].
Proof.
  destruct (collectOpenFolderPaths_releases sample_os sample_windows 4
              [] [] eq_refl eq_refl) as (out & evs & E & _ & D & _ & F).
  exists out, evs. split; [exact E | split; [exact D | exact F]].
Defined.

Lemma windows_occurrences sw l :
  occurrences is_uninit (flat_map (window_events sw) l) = 0%nat
  /\ occurrences is_release_collection (flat_map (window_events sw) l)
     = 0%nat
  /\ occurrences is_item (flat_map (window_events sw) l) = length l.
Proof.
  unfold occurrences. induction l as [|i l (IH1 & IH2 & IH3)];
    [repeat split|].
  cbn [flat_map]. rewrite !filter_app, !length_app, IH1, IH2, IH3.
  unfold window_events.
  destruct (Item sw i) as [disp|]; [|repeat split].
  destruct (QueryInterface_IWebBrowserApp disp) as [app|]; [|repeat split].
  destruct (get_LocationURL app); repeat split.
Qed.

Lemma folder_paths_length sw l :
  (length (folder_paths sw l) <= length l)%nat.
Proof.
  unfold folder_paths. induction l as [|i l IH]; [reflexivity|].
  cbn [flat_map length]. rewrite length_app.
  destruct (folder_path sw i); cbn [length]; lia.
Qed.

Lemma folder_paths_nonempty sw l :
  Forall (fun p => p <> []) (folder_paths sw l).
Proof.
  apply Forall_forall. intros p H.
  apply folder_paths_In in H as (i & _ & E).
  apply folder_path_spec in E as (_ & _ & _ & N). exact N.
Qed.

Lemma item_calls_windows sw l :
  item_calls (flat_map (window_events sw) l) = l.
Proof.
  unfold item_calls. induction l as [|i l IH]; [reflexivity|].
  cbn [flat_map]. rewrite flat_map_app, IH. unfold window_events.
  destruct (Item sw i) as [disp|]; [|reflexivity].
  destruct (QueryInterface_IWebBrowserApp disp) as [app|]; [|reflexivity].
  destruct (get_LocationURL app); reflexivity.
Qed.

Lemma item_calls_capture os :
  item_calls (capture_events os)
  = match CoCreateInstance_ShellWindows os with
    | Some sw =>
        match get_Count sw with
        | Some count => enumeration count
        | None => []
        end
    | None => []
    end.
Proof.
  unfold capture_events, item_calls.
  destruct (CoCreateInstance_ShellWindows os) as [sw|];
    [|destruct (CoInitializeEx os); reflexivity].
  destruct (get_Count sw) as [count|];
    [|destruct (CoInitializeEx os); reflexivity].
  rewrite !flat_map_app. cbn [flat_map app]. rewrite !flat_map_app.
  fold (item_calls (flat_map (window_events sw) (enumeration count))).
  rewrite item_calls_windows.
  destruct (CoInitializeEx os); cbn [flat_map app]; now rewrite !app_nil_r.
Qed.

Lemma released_disps_capture os :
  released_disps (capture_events os)
  = match CoCreateInstance_ShellWindows os with
    | Some sw =>
        match get_Count sw with
        | Some count => filter (has_item sw) (enumeration count)
        | None => []
        end
    | None => []
    end.
Proof.
  unfold capture_events, released_disps.
  destruct (CoCreateInstance_ShellWindows os) as [sw|];
    [|destruct (CoInitializeEx os); reflexivity].
  destruct (get_Count sw) as [count|];
    [|destruct (CoInitializeEx os); reflexivity].
  rewrite !flat_map_app. cbn [flat_map app]. rewrite !flat_map_app.
  fold (released_disps (flat_map (window_events sw) (enumeration count))).
  rewrite released_disps_windows.
  destruct (CoInitializeEx os); cbn [flat_map app]; now rewrite !app_nil_r.
Qed.

Lemma folder_path_has_item sw i :
  has_folder_path sw i = true -> has_item sw i = true.
Proof.
  unfold has_folder_path, folder_path, location, has_item.
  now destruct (Item sw i).
Qed.

Lemma filter_folder_path_fetched sw l :
  filter (has_folder_path sw) (filter (has_item sw) l)
  = filter (has_folder_path sw) l.
Proof.
  induction l as [|i l IH]; [reflexivity|]. cbn [filter].
  destruct (has_item sw i) eqn:I; cbn [filter]; rewrite IH.
  - reflexivity.
  - destruct (has_folder_path sw i) eqn:F; [|reflexivity].
    apply folder_path_has_item in F. congruence.
Qed.

(** X9.  However the automation subsystem answers: it is torn down once
    when, and only when, its initialisation succeeded; the collection is
    released once when, and only when, it was obtained; the windows that
    are fetched are those of the indices from 0 to the count, each once
    and in this order, and none when the collection or its count is not
    available; and when no fetch yields a window, the list is empty. *)
Theorem collectOpenFolderPaths_teardown os out0 tr :
  exists out evs,
    collectOpenFolderPaths os out0 tr = Some (out, tr ++ evs)
    /\ occurrences is_uninit evs
       = (if CoInitializeEx os then 1 else 0)%nat
    /\ occurrences is_release_collection evs
       = (match CoCreateInstance_ShellWindows os with
          | Some _ => 1
          | None => 0
          end)%nat
    /\ item_calls evs
       = match CoCreateInstance_ShellWindows os with
         | Some sw =>
             match get_Count sw with
             | Some count => enumeration count
             | None => []
             end
         | None => []
         end
    /\ NoDup (item_calls evs)
    /\ ((forall sw i,
           CoCreateInstance_ShellWindows os = Some sw ->
           In i (item_calls evs) -> Item sw i = None) ->
        out = []).
Proof.
  exists (captured os), (capture_events os).
  split; [apply collectOpenFolderPaths_trace|].
  rewrite item_calls_capture.
  unfold capture_events, captured, occurrences.
  destruct (CoCreateInstance_ShellWindows os) as [sw|].
  2:{ destruct (CoInitializeEx os); repeat split; constructor. }
  destruct (get_Count sw) as [count|].
  2:{ destruct (CoInitializeEx os); repeat split; constructor. }
  destruct (windows_occurrences sw (enumeration count)) as (O1 & O2 & _).
  unfold occurrences in *.
  rewrite !filter_app, !length_app. cbn [filter length app is_uninit
    is_release_collection].
  rewrite !filter_app, !length_app, O1, O2.
  assert (E : (forall sw' i, Some sw = Some sw' ->
                 In i (enumeration count) -> Item sw' i = None) ->
              folder_paths sw (enumeration count) = []).
  { intros H. destruct (folder_paths sw (enumeration count)) as [|p l] eqn:P;
      [reflexivity|]. exfalso.
    assert (I : In p (folder_paths sw (enumeration count)))
      by (rewrite P; now left).
    apply folder_paths_In in I as (i & Hi & Fp).
    apply folder_path_spec in Fp as (burl & L & _).
    unfold location in L. now rewrite (H sw i eq_refl Hi) in L. }
  destruct (CoInitializeEx os); cbn [filter length is_uninit
    is_release_collection];
    (split; [reflexivity|]); (split; [reflexivity|]);
    (split; [reflexivity|]); (split; [apply range_NoDup | exact E]).
Qed.

(** X10.  The list the enumerator returns has no empty path, and its
    entries are, one for one and in order, the paths of those windows it
    obtained (the window objects it released, each a different index) whose
    location decodes to a non-empty path: at most one entry for each window
    obtained, and none when no window was obtained. *)
Theorem collectOpenFolderPaths_entries os out0 tr :
  exists out evs,
    collectOpenFolderPaths os out0 tr = Some (out, tr ++ evs)
    /\ Forall (fun p => p <> []) out
    /\ NoDup (released_disps evs)
    /\ (length out <= length (released_disps evs))%nat
    /\ (forall sw,
          CoCreateInstance_ShellWindows os = Some sw ->
          map Some out
          = map (folder_path sw)
                (filter (has_folder_path sw) (released_disps evs))).
Proof.
  exists (captured os), (capture_events os).
  split; [apply collectOpenFolderPaths_trace|].
  rewrite released_disps_capture. unfold captured.
  destruct (CoCreateInstance_ShellWindows os) as [sw|].
  2:{ repeat split; try constructor; try (intros ? H; discriminate H). }
  destruct (get_Count sw) as [count|].
  2:{ repeat split; try constructor; try (intros ? _; reflexivity). }
  assert (M : map Some (folder_paths sw (enumeration count))
              = map (folder_path sw)
                    (filter (has_folder_path sw)
                       (filter (has_item sw) (enumeration count))))
    by (rewrite filter_folder_path_fetched; apply folder_paths_filter).
  split; [apply folder_paths_nonempty|].
  split; [apply NoDup_filter, range_NoDup|].
  split.
  - rewrite <- (length_map Some), M, length_map. apply filter_length_le.
  - intros sw' H. injection H as <-. exact M.
Qed.

(** * Further properties of the process reaper *)

Lemma attempts_handles os l :
  closed_handles (flat_map (attempt os) l)
  = terminated_handles (flat_map (attempt os) l)
  /\ terminations (flat_map (attempt os) l)
     = map (fun h => (h, 0)) (terminated_handles (flat_map (attempt os) l))
  /\ waits (flat_map (attempt os) l)
     = map (fun h => (h, 2000))
           (terminated_handles (flat_map (attempt os) l))
  /\ occurrences is_close_snapshot (flat_map (attempt os) l) = 0%nat
  /\ total_wait (flat_map (attempt os) l)
     = 2000 * Z.of_nat (length (terminated_handles
                                  (flat_map (attempt os) l))).
Proof.
  unfold closed_handles, terminated_handles, terminations, waits,
    occurrences, total_wait.
  induction l as [|pe l (IH1 & IH2 & IH3 & IH4 & IH5)]; [repeat split|].
  cbn [flat_map]. rewrite !flat_map_app, !map_app, filter_app, !length_app,
    fold_right_app.
  rewrite IH1, IH2, IH3, IH4, IH5. unfold attempt.
  destruct (OpenProcess os (th32ProcessID pe));
    cbn [flat_map app map filter length fold_right blocking_time
         is_close_snapshot]; repeat split; lia.
Qed.

Lemma attempts_pid_events os l :
  flat_map (attempt os) l = flat_map (pid_events os) (map th32ProcessID l).
Proof.
  induction l as [|pe l IH]; [reflexivity|].
  cbn [flat_map map]. now rewrite IH.
Qed.

Lemma closed_handles_pid_events os pids :
  closed_handles (flat_map (pid_events os) pids)
  = flat_map (returned_handle os) pids.
Proof.
  unfold closed_handles. induction pids as [|pid pids IH]; [reflexivity|].
  cbn [flat_map]. rewrite flat_map_app, IH.
  unfold pid_events, returned_handle.
  destruct (OpenProcess os pid); reflexivity.
Qed.

(** X11.  What the process reaper does with the processes it asks to
    open.  Without a snapshot it opens none and closes nothing.  With one,
    each [OpenProcess] of the trace is followed at once, when it returned a
    handle, by [TerminateProcess] with exit code 0, [WaitForSingleObject]
    with a bound of 2000 ms and [CloseHandle], all three on that handle,
    and by nothing when it returned none; then comes the next
    [OpenProcess], and the closing of the snapshot comes last.  So the
    handles closed are the handles returned, once each and in order. *)
Theorem killAllExplorer_handles os tr :
  exists evs,
    killAllExplorer os tr = Some (tt, tr ++ evs)
    /\ evs = [EvEnter Fn_killAllExplorer; EvCreateToolhelp32Snapshot]
             ++ match CreateToolhelp32Snapshot os with
                | Some _ =>
                    flat_map (pid_events os) (opened_pids evs)
                    ++ [EvCloseSnapshot]
                | None => []
                end
    /\ closed_handles evs
       = flat_map (returned_handle os) (opened_pids evs)
    /\ (CreateToolhelp32Snapshot os = None -> opened_pids evs = []).
Proof.
  exists (reaper_events os). split; [apply killAllExplorer_run|].
  unfold reaper_events.
  destruct (CreateToolhelp32Snapshot os) as [snap|]; [|repeat split].
  assert (O : opened_pids
                ([EvEnter Fn_killAllExplorer; EvCreateToolhelp32Snapshot]
                 ++ flat_map (attempt os) (filter is_explorer snap)
                 ++ [EvCloseSnapshot])
              = map th32ProcessID (filter is_explorer snap)).
  { unfold opened_pids. cbn [app flat_map]. rewrite flat_map_app.
    cbn [flat_map]. rewrite app_nil_r. apply opened_pids_attempts. }
  rewrite O. split; [now rewrite attempts_pid_events|].
  split; [|discriminate].
  unfold closed_handles. cbn [app flat_map]. rewrite flat_map_app.
  cbn [flat_map]. rewrite app_nil_r.
  rewrite attempts_pid_events. apply closed_handles_pid_events.
Qed.

(** * Further properties of the run *)

Lemma total_wait_app t1 t2 :
  total_wait (t1 ++ t2) = total_wait t1 + total_wait t2.
Proof.
  unfold total_wait. induction t1 as [|e t1 IH]; cbn [app fold_right];
    [reflexivity | rewrite IH; lia].
Qed.

Lemma capture_quiet t :
  from Capture t -> total_wait t = 0 /\ terminated_handles t = [].
Proof.
  intros F. induction F as [|e t He _ [IH1 IH2]]; [now split|].
  unfold total_wait, terminated_handles in *. cbn [fold_right flat_map].
  rewrite IH1, IH2.
  destruct e as [[]| | | | | | | | | | | | | | | | | | |];
    cbn in He; try discriminate; now split.
Qed.

Lemma replay_quiet paths :
  total_wait (flat_map open_request paths)
  = 100 * Z.of_nat (length (open_requests (flat_map open_request paths)))
  /\ terminated_handles (flat_map open_request paths) = [].
Proof.
  unfold total_wait, terminated_handles, open_requests.
  induction paths as [|p paths [IH1 IH2]]; [now split|].
  cbn [flat_map open_request app fold_right blocking_time length].
  rewrite IH1, IH2. split; [lia | reflexivity].
Qed.

(** X12.  The time a run may block is bounded by what it did: 2000 ms for
    each process it terminated and 100 ms for each open-request, and
    nothing else. *)
Theorem wmain_blocking_time os :
  exists tr,
    wmain os [] = Some (0, tr)
    /\ total_wait tr
       = 2000 * Z.of_nat (length (terminated_handles tr))
         + 100 * Z.of_nat (length (open_requests tr)).
Proof.
  destruct (wmain_run os []) as (t1 & _ & F1 & W). cbn [app] in W.
  eexists. split; [exact W|].
  destruct (capture_quiet t1 F1) as [C1 C2].
  assert (N1 : Capture <> Replay) by discriminate.
  assert (N2 : Terminate <> Replay) by discriminate.
  destruct (other_component_quiet _ _ F1 N1) as [Q1 _].
  destruct (other_component_quiet _ _ (reaper_events_from os) N2) as [Q2 _].
  assert (R : total_wait (reaper_events os)
              = 2000 * Z.of_nat (length (terminated_handles
                                           (reaper_events os)))).
  { unfold reaper_events.
    destruct (CreateToolhelp32Snapshot os) as [snap|]; [|reflexivity].
    destruct (attempts_handles os (filter is_explorer snap))
      as (_ & _ & _ & _ & A5).
    unfold terminated_handles in *. cbn [app flat_map].
    rewrite flat_map_app. cbn [flat_map]. rewrite app_nil_r.
    change (total_wait
              (EvEnter Fn_killAllExplorer :: EvCreateToolhelp32Snapshot
               :: flat_map (attempt os) (filter is_explorer snap)
                  ++ [EvCloseSnapshot]))
      with (0 + (0 + total_wait
                       (flat_map (attempt os) (filter is_explorer snap)
                        ++ [EvCloseSnapshot]))).
    rewrite total_wait_app, A5. cbn. lia. }
  assert (P : total_wait (replay_events (captured os))
              = 100 * Z.of_nat (length (open_requests
                                          (replay_events (captured os))))
              /\ terminated_handles (replay_events (captured os)) = []).
  { unfold replay_events. destruct (captured os) as [|p l]; [now split|].
    destruct (replay_quiet (p :: l)) as [P1 P2].
    unfold terminated_handles, open_requests in *.
    cbn [flat_map app] in *. split; [|exact P2].
    change (total_wait (EvEnter Fn_reopenFolders
                        :: open_request p ++ flat_map open_request l))
      with (0 + total_wait (open_request p ++ flat_map open_request l)).
    rewrite P1. lia. }
  destruct P as [P1 P2].
  rewrite !total_wait_app, C1, R, P1.
  unfold terminated_handles in *. rewrite !flat_map_app, C2, P2.
  rewrite !open_requests_app, Q1, Q2. rewrite app_nil_r. cbn [app]. lia.
Qed.

Lemma folder_paths_targets sw l :
  map target (folder_paths sw l)
  = map (fun i => match folder_path sw i with
                  | Some p => target p
                  | None => []
                  end) (filter (has_folder_path sw) l).
Proof.
  unfold folder_paths. induction l as [|i l IH]; [reflexivity|].
  cbn [flat_map filter]. unfold has_folder_path at 1.
  destruct (folder_path sw i) eqn:E; cbn [app map]; rewrite IH, ?E;
    reflexivity.
Qed.

(** X13.  From the windows to the requests: a run asks to open one folder
    for each window whose location decodes to a non-empty path, in the
    order of the indices of the windows, and the folder it names is the
    decoded path up to its first null character. *)
Theorem wmain_reopens_real_folders os sw count :
  CoCreateInstance_ShellWindows os = Some sw ->
  get_Count sw = Some count ->
  exists tr,
    wmain os [] = Some (0, tr)
    /\ open_requests tr
       = map (fun i => match folder_path sw i with
                       | Some p => target p
                       | None => []
                       end)
             (filter (has_folder_path sw) (enumeration count)).
Proof.
  intros Hsw Hc.
  destruct (wmain_run os []) as (t1 & _ & F1 & W). cbn [app] in W.
  eexists. split; [exact W|].
  assert (N1 : Capture <> Replay) by discriminate.
  assert (N2 : Terminate <> Replay) by discriminate.
  destruct (other_component_quiet _ _ F1 N1) as [Q1 _].
  destruct (other_component_quiet _ _ (reaper_events_from os) N2) as [Q2 _].
  rewrite !open_requests_app, Q1, Q2. cbn [app].
  rewrite <- folder_paths_targets.
  unfold captured. rewrite Hsw, Hc.
  destruct (folder_paths sw (enumeration count)) as [|p l]; [reflexivity|].
  unfold replay_events.
  change (EvEnter Fn_reopenFolders :: flat_map open_request (p :: l))
    with ([EvEnter Fn_reopenFolders] ++ flat_map open_request (p :: l)).
  rewrite open_requests_app. apply open_requests_replay.
Qed.

Lemma wmain_reopens_real_folders_witness :
  exists tr,
    wmain sample_os [] = Some (0, tr)
    /\ open_requests tr = [[67; 58; 92; 97]; [68; 58; 92]].
Proof.
  destruct (wmain_reopens_real_folders sample_os sample_windows 4
              eq_refl eq_refl) as (tr & W & R).
  exists tr. split; [exact W | exact R].
Defined.

Lemma to_native_nonnull a : Forall plain a -> ~ In 0 (map to_native a).
Proof.
  intros H I. apply in_map_iff in I as (c & E & Hc).
  rewrite Forall_forall in H. destruct (H c Hc) as [N0 _].
  unfold to_native in E. destruct (Z.eqb_spec c 47); congruence.
Qed.

Lemma target_upto_null w r : ~ In 0 w -> target (w ++ 0 :: r) = w.
Proof.
  intros H. unfold target, c_str. rewrite <- app_assoc. cbn [app].
  now apply wcs_app_null.
Qed.

Lemma target_nonnull w : ~ In 0 w -> target w = w.
Proof. intros H. unfold target, c_str. now apply wcs_app_null. Qed.

Lemma run_open_requests os t1 :
  from Capture t1 ->
  open_requests (t1 ++ reaper_events os ++ replay_events (captured os))
  = map target (captured os).
Proof.
  intros F1.
  assert (N1 : Capture <> Replay) by discriminate.
  assert (N2 : Terminate <> Replay) by discriminate.
  destruct (other_component_quiet _ _ F1 N1) as [Q1 _].
  destruct (other_component_quiet _ _ (reaper_events_from os) N2) as [Q2 _].
  rewrite !open_requests_app, Q1, Q2. cbn [app].
  destruct (captured os) as [|p l]; [reflexivity|].
  unfold replay_events.
  change (EvEnter Fn_reopenFolders :: flat_map open_request (p :: l))
    with ([EvEnter Fn_reopenFolders] ++ flat_map open_request (p :: l)).
  rewrite open_requests_app. apply open_requests_replay.
Qed.

(** A window with a folder path is captured, and the run asks to open
    the target of its path. *)
Lemma window_path_reopened os sw count i p :
  CoCreateInstance_ShellWindows os = Some sw ->
  get_Count sw = Some count ->
  0 <= i < count ->
  folder_path sw i = Some p ->
  exists out t1 tr,
    collectOpenFolderPaths os [] [] = Some (out, t1)
    /\ In p out
    /\ wmain os [] = Some (0, tr)
    /\ open_requests tr = map target out
    /\ In (EvShellExecuteW open_verb (target p) SW_SHOWNORMAL) tr.
Proof.
  intros Hsw Hc Hi Fp.
  destruct (wmain_run os []) as (t1 & E & F1 & W). cbn [app] in E, W.
  assert (I : In p (captured os)).
  { unfold captured. rewrite Hsw, Hc. apply folder_paths_In.
    exists i. split; [|exact Fp]. apply range_In. lia. }
  exists (captured os), t1,
    (t1 ++ reaper_events os ++ replay_events (captured os)).
  split; [exact E|]. split; [exact I|]. split; [exact W|].
  split; [now apply run_open_requests|].
  apply in_or_app. right. apply in_or_app. right.
  unfold replay_events. destruct (captured os) as [|q l]; [destruct I|].
  right. apply in_flat_map. exists p. split; [exact I | now left].
Qed.

(** X14.  A window of the collection whose location is the local-file
    scheme followed by a non-empty run of characters without percent sign
    is captured, with that run as its path once the separators are
    replaced, and the run of the program asks to open that very path. *)
Theorem plain_location_reopened os sw count i a :
  CoCreateInstance_ShellWindows os = Some sw ->
  get_Count sw = Some count ->
  0 <= i < count ->
  location sw i = Some (file_scheme ++ a) ->
  Forall plain a -> a <> [] ->
  exists out t1 tr,
    collectOpenFolderPaths os [] [] = Some (out, t1)
    /\ In (map to_native a) out
    /\ wmain os [] = Some (0, tr)
    /\ open_requests tr = map target out
    /\ target (map to_native a) = map to_native a
    /\ In (EvShellExecuteW open_verb (map to_native a) SW_SHOWNORMAL) tr.
Proof.
  intros Hsw Hc Hi L H N.
  assert (T : target (map to_native a) = map to_native a)
    by (apply target_nonnull; now apply to_native_nonnull).
  assert (Fp : folder_path sw i = Some (map to_native a)).
  { unfold folder_path. rewrite L. unfold c_str.
    rewrite <- app_assoc, urlToPath_file, urlToPath_loop_plain_run
      by assumption.
    cbn [app urlToPath_loop]. change (0 =? 0) with true. cbv iota.
    destruct a; [congruence | reflexivity]. }
  destruct (window_path_reopened os sw count i _ Hsw Hc Hi Fp)
    as (out & t1 & tr & E & I & W & R & Q).
  rewrite T in Q. exists out, t1, tr. repeat split; assumption.
Qed.

Lemma plain_location_reopened_witness :
  exists out t1 tr,
    collectOpenFolderPaths sample_os [] [] = Some (out, t1)
    /\ In [67; 58; 92; 97] out
    /\ wmain sample_os [] = Some (0, tr)
    /\ In (EvShellExecuteW open_verb [67; 58; 92; 97] SW_SHOWNORMAL) tr.
Proof.
  destruct (plain_location_reopened sample_os sample_windows 4 0
              [67; 58; 47; 97])
    as (out & t1 & tr & E & I & W & _ & _ & Q);
    try reflexivity; try lia; try discriminate.
  - repeat constructor; discriminate.
  - exists out, t1, tr. repeat split; assumption.
Defined.

(** X15.  An escaped null character cuts the folder that is reopened: where
    the location of a window of the collection holds [%00] behind the
    scheme and a run of characters without percent sign, the path that is
    captured goes on behind the null character, but the run of the
    program asks to open only the part before it. *)
Theorem escaped_null_cuts_target os sw count i a b :
  CoCreateInstance_ShellWindows os = Some sw ->
  get_Count sw = Some count ->
  0 <= i < count ->
  location sw i = Some (file_scheme ++ a ++ [37; 48; 48] ++ b) ->
  Forall plain a ->
  exists r out t1 tr,
    collectOpenFolderPaths os [] [] = Some (out, t1)
    /\ In (map to_native a ++ 0 :: r) out
    /\ wmain os [] = Some (0, tr)
    /\ open_requests tr = map target out
    /\ target (map to_native a ++ 0 :: r) = map to_native a
    /\ In (EvShellExecuteW open_verb (map to_native a) SW_SHOWNORMAL) tr.
Proof.
  intros Hsw Hc Hi L H.
  assert (Hb : In 0 (b ++ [0])) by (apply in_app_iff; right; now left).
  destruct (urlToPath_loop_total (b ++ [0]) Hb []) as [r Er].
  assert (T : target (map to_native a ++ 0 :: r) = map to_native a)
    by (apply target_upto_null; now apply to_native_nonnull).
  assert (Fp : folder_path sw i = Some (map to_native a ++ 0 :: r)).
  { unfold folder_path. rewrite L. unfold c_str.
    rewrite <- !app_assoc, urlToPath_file, urlToPath_loop_plain_run
      by assumption.
    cbn [app].
    rewrite (urlToPath_loop_escape 48 48 0 0) by reflexivity.
    rewrite urlToPath_loop_acc, Er. cbn [app]. rewrite <- app_assoc.
    cbn [app]. now destruct (map to_native a). }
  destruct (window_path_reopened os sw count i _ Hsw Hc Hi Fp)
    as (out & t1 & tr & E & I & W & R & Q).
  rewrite T in Q. exists r, out, t1, tr. repeat split; assumption.
Qed.

Lemma escaped_null_cuts_target_witness :
  exists r out t1 tr,
    collectOpenFolderPaths cut_os [] [] = Some (out, t1)
    /\ In ([67; 58] ++ 0 :: r) out
    /\ wmain cut_os [] = Some (0, tr)
    /\ In (EvShellExecuteW open_verb [67; 58] SW_SHOWNORMAL) tr.
Proof.
  destruct (escaped_null_cuts_target cut_os cut_windows 1 0 [67; 58] [97])
    as (r & out & t1 & tr & E & I & W & _ & _ & Q);
    try reflexivity; try lia.
  - repeat constructor; discriminate.
  - exists r, out, t1, tr. repeat split; assumption.
Defined.

(** X16.  The round trip with escapes.  Whatever set of characters is held
    reserved: a path without null character, whose reserved characters
    other than the native separator are of one byte, and whose other
    characters are neither the percent sign nor the segment separator, is
    decoded to itself from its encoding, in which each reserved character
    is a percent sign and two hexadecimal digits. *)
Theorem encode_urlToPath_roundtrip_escaped (reserved : wchar_t -> bool)
    (path : wstring) :
  Forall (encodable reserved) path ->
  urlToPath (Some (encode reserved path)) = Some path.
Proof. exact (encode_decoded reserved path). Qed.

Lemma encode_urlToPath_roundtrip_escaped_witness :
  encode codec_reserved [67; 58; 92; 49; 48; 48; 37; 47; 97]
  = c_str (file_scheme
           ++ [67; 58; 47; 49; 48; 48; 37; 50; 53; 37; 50; 70; 97])
  /\ urlToPath (Some (encode codec_reserved
                        [67; 58; 92; 49; 48; 48; 37; 47; 97]))
     = Some [67; 58; 92; 49; 48; 48; 37; 47; 97].
Proof.
  split; [reflexivity|].
  apply (encode_urlToPath_roundtrip_escaped codec_reserved).
  repeat constructor; unfold encodable; cbn; intuition lia.
Defined.
